(** * crowgent-openapi: a shallow embedding of [src/cli.ts]

    The development follows the command-line program of the repository:
    the file collector ([collectFiles]), the context assembler (the
    [codeContext] expression), the post-processing of the completion
    response (the two [replace] calls and [trim]), the interactive action
    of the [commander] program and the question-and-answer loop ([runQA]).

    JavaScript strings are sequences of UTF-16 code units; they are modelled
    as lists of [N].  The file system, the user at the terminal and the
    completion service are the environment of the program and are given
    as data (a tree, the answers to the prompts, the results of the
    successive requests). *)

From Stdlib Require Import List NArith ZArith Bool Lia String Ascii.
From Stdlib Require Import Permutation.
Import ListNotations.

(* ------------------------------------------------------------------ *)
(** * Part I: definitions *)
(* ------------------------------------------------------------------ *)

(** ** JavaScript strings *)

Module JS.

(** A string value: its UTF-16 code units. *)
Definition jstr := list N.

(** String literals of the source, written with Rocq strings
    (all the literals of the program that matter here are ASCII). *)
Definition lit (s : string) : jstr :=
  map N_of_ascii (list_ascii_of_string s).

Definition jstr_eq_dec (a b : jstr) : {a = b} + {a <> b} :=
  list_eq_dec N.eq_dec a b.

Definition eqb (a b : jstr) : bool :=
  if jstr_eq_dec a b then true else false.

(** [Array.prototype.includes] on an array of strings. *)
Definition includes (l : list jstr) (s : jstr) : bool :=
  existsb (eqb s) l.

(** [String.prototype.startsWith]. *)
Fixpoint startsWith (s p : jstr) : bool :=
  match p, s with
  | [], _ => true
  | c :: p', x :: s' => N.eqb c x && startsWith s' p'
  | _ :: _, [] => false
  end.

(** Truthiness of a possibly undefined string: [undefined], [null] and
    the empty string are falsy. *)
Definition truthy (v : option jstr) : bool :=
  match v with
  | Some (_ :: _) => true
  | _ => false
  end.

(** [a || b] on possibly undefined strings. *)
Definition or_else (a b : option jstr) : option jstr :=
  if truthy a then a else b.

(** [a || 'literal']: the result is a string. *)
Definition or_default (a : option jstr) (d : jstr) : jstr :=
  match a with
  | Some (x :: s) => x :: s
  | _ => d
  end.

(** White space and line terminators of ECMAScript, the code units that
    [String.prototype.trim] removes: TAB, LF, VT, FF, CR, SP, NBSP,
    U+1680, U+2000..U+200A, U+2028, U+2029, U+202F, U+205F, U+3000 and
    U+FEFF. *)
Definition is_ws (c : N) : bool :=
  ((9 <=? c) && (c <=? 13) || (c =? 32) || (c =? 160) || (c =? 5760)
   || (8192 <=? c) && (c <=? 8202) || (c =? 8232) || (c =? 8233)
   || (c =? 8239) || (c =? 8287) || (c =? 12288) || (c =? 65279))%N.

Fixpoint trimStart (s : jstr) : jstr :=
  match s with
  | c :: s' => if is_ws c then trimStart s' else s
  | [] => []
  end.

Definition trimEnd (s : jstr) : jstr := rev (trimStart (rev s)).

(** [String.prototype.trim]. *)
Definition trim (s : jstr) : jstr := trimEnd (trimStart s).

(** Case mapping of one code unit, on the ASCII range.  Outside of it
    the mapping is left as the identity: no code unit above 127 maps
    to an ASCII letter under [toLowerCase], and under the canonical
    form of a case-insensitive regular expression a code unit above 127
    never becomes one below 128, so the comparisons of the program with
    ASCII literals are decided by the ASCII range alone. *)
Definition lower (c : N) : N :=
  if ((65 <=? c) && (c <=? 90))%N then (c + 32)%N else c.

Definition upper (c : N) : N :=
  if ((97 <=? c) && (c <=? 122))%N then (c - 32)%N else c.

(** [String.prototype.toLowerCase]. *)
Definition toLowerCase (s : jstr) : jstr := map lower s.

(** [q] is [target] up to the case of its letters: every code unit of
    [q] is the one of [target] or its upper case form. *)
Definition any_casing (target q : jstr) : Prop :=
  Forall2 (fun d c => c = d \/ c = upper d) target q.

(** [Array.prototype.join] on strings. *)
Fixpoint join (sep : jstr) (l : list jstr) : jstr :=
  match l with
  | [] => []
  | [a] => a
  | a :: l' => a ++ sep ++ join sep l'
  end.

Definition starts_with_ws (s : jstr) : bool :=
  match s with
  | c :: _ => is_ws c
  | [] => false
  end.

Definition ends_with_ws (s : jstr) : bool := starts_with_ws (rev s).

(** [String.prototype.includes]: does [p] occur in [s]? *)
Fixpoint contains (s p : jstr) : bool :=
  startsWith s p ||
  match s with
  | [] => false
  | _ :: s' => contains s' p
  end.

End JS.
Import JS.

(** ** Regular expressions

    The two regular expressions of the program use anchors, literal
    characters, the optional operator and the [i] flag, without the [m]
    flag.  [rmatch] is a backtracking matcher in continuation style: it
    tries the alternatives in the priority order of ECMAScript (an
    optional item is tried before it is skipped) and returns what the
    continuation returns for the first alternative that succeeds. *)

Module Regex.

Inductive re : Type :=
| Bol                       (* ^ *)
| Eol                       (* $ *)
| Chr (c : N)               (* a literal character *)
| Opt (r : re)              (* r? *)
| Seq (r1 r2 : re).         (* r1 r2 *)

(** Comparison of a subject code unit with a pattern character under
    the [i] flag: both are brought to their canonical (upper case) form. *)
Definition canon_eqb (p x : N) : bool := N.eqb (upper p) (upper x).

(** [rmatch r bol s k]: match [r] at the head of [s]; [bol] tells whether
    [s] is the whole subject (position 0).  The continuation receives
    the same information for the rest of the subject. *)
Fixpoint rmatch {A : Type} (r : re) (bol : bool) (s : jstr)
         (k : bool -> jstr -> option A) : option A :=
  match r with
  | Bol => if bol then k bol s else None
  | Eol => match s with [] => k bol s | _ :: _ => None end
  | Chr c =>
      match s with
      | x :: s' => if canon_eqb c x then k false s' else None
      | [] => None
      end
  | Opt r' =>
      match rmatch r' bol s k with
      | Some t => Some t
      | None => k bol s
      end
  | Seq r1 r2 => rmatch r1 bol s (fun b t => rmatch r2 b t k)
  end.

(** The continuation of a whole expression: the match is found, what
    follows it in the subject is returned. *)
Definition accept : bool -> jstr -> option jstr := fun _ t => Some t.

(** The left-most match: [search r bol pre s] looks for a match of [r]
    starting at the head of [s], then one code unit further, and so on
    up to the end of [s]; [pre] is the part of the subject already
    passed.  The result is the subject with the match removed. *)
Fixpoint search (r : re) (bol : bool) (pre s : jstr) : option jstr :=
  match rmatch r bol s accept with
  | Some t => Some (pre ++ t)
  | None =>
      match s with
      | [] => None
      | x :: s' => search r false (pre ++ [x]) s'
      end
  end.

(** [s.replace(r, '')] for a regular expression without the [g] flag. *)
Definition replace_empty (r : re) (s : jstr) : jstr :=
  match search r true [] s with
  | Some t => t
  | None => s
  end.

End Regex.
Import Regex.

Declare Scope re_scope.
Delimit Scope re_scope with re.
Infix "+>" := Seq (at level 60, right associativity) : re_scope.

(** ** SpecGenerator: normalisation of the completion response *)

Module SpecGenerator.

Definition backtick : N := 96.
Definition newline : N := 10.

(** The fence marker, three backticks. *)
Definition fence : jstr := [backtick; backtick; backtick].

(** [/^```ya?ml\n?/i] *)
Definition re_open : re :=
  (Bol +> Chr backtick +> Chr backtick +> Chr backtick
     +> Chr 121 (* y *) +> Opt (Chr 97 (* a *)) +> Chr 109 (* m *)
     +> Chr 108 (* l *) +> Opt (Chr newline))%re.

(** [/\n?```$/i] *)
Definition re_close : re :=
  (Opt (Chr newline) +> Chr backtick +> Chr backtick +> Chr backtick +> Eol)%re.

(** [let yaml = response.choices[0].message.content || '';
     yaml = yaml.replace(/^```ya?ml\n?/i, '').replace(/\n?```$/i, '').trim();]
    The content of a message may be [null]. *)
Definition normalize (content : option jstr) : jstr :=
  let yaml := or_default content [] in
  trim (replace_empty re_close (replace_empty re_open yaml)).

(** A fence marker occurs in the text. *)
Definition has_fence (s : jstr) : bool := contains s fence.

(** What the two replacements remove next to a marker: one line break
    after the opening one, one line break before the closing one. *)
Definition drop_nl (s : jstr) : jstr :=
  match s with
  | c :: s' => if (c =? newline)%N then s' else s
  | [] => []
  end.


(** A language tag accepted by [re_open]: [yaml] or [yml] in any letter
    case. *)
Definition is_yaml_tag (t : jstr) : bool :=
  eqb (toLowerCase t) (lit "yaml") || eqb (toLowerCase t) (lit "yml").

End SpecGenerator.
Import SpecGenerator.

(** ** FileCollector *)

Module Collector.

(** The part of the file system the collector reads: a directory lists
    its entries in the order of [readdirSync]; a file has the size that
    [statSync] reports and the text that [readFileSync(_, 'utf-8')]
    returns. *)
Unset Elimination Schemes.
Inductive node : Type :=
| File (size : N) (text : jstr)
| Dir (entries : list (jstr * node)).
Set Elimination Schemes.

(** [{ path: string; content: string }] *)
Record SourceFile : Type := { path : jstr; content : jstr }.

Definition EXTENSIONS : list jstr :=
  map lit [".ts"; ".js"; ".tsx"; ".jsx"; ".py"; ".rb"; ".go"; ".java";
           ".kt"; ".rs"]%string.

Definition IGNORE : list jstr :=
  map lit ["node_modules"; ".git"; "dist"; "build"; "__pycache__";
           ".next"; "coverage"]%string.

Definition dot : N := 46.
Definition slash : N := 47.

(** The place of the last ['.'] of a name: what is before it, and the
    rest from the dot on. *)
Fixpoint last_dot (s : jstr) : option (jstr * jstr) :=
  match s with
  | [] => None
  | c :: s' =>
      match last_dot s' with
      | Some (pre, ext) => Some (c :: pre, ext)
      | None => if (c =? dot)%N then Some ([], s) else None
      end
  end.

(** [path.extname] of Node on a name without separator, as the entries
    of a directory are: the name from its last dot on, and the empty
    string when there is no dot, when the last dot is the first
    character of the name, and when the name is [..]. *)
Definition extname (name : jstr) : jstr :=
  match last_dot name with
  | None => []
  | Some ([], _) => []
  | Some (pre, ext) =>
      if eqb pre [dot] && eqb ext [dot] then [] else ext
  end.

(** [relative(root, join(dir, entry))]: [dir] is kept as the names that
    lead from [root] to it, and the relative path joins them with the
    separator. *)
Definition relative_path (dir : list jstr) (entry : jstr) : jstr :=
  join [slash] (dir ++ [entry]).

(** [entry.startsWith('.') || IGNORE.includes(entry)]: a name the
    collector passes over. *)
Definition skipped (entry : jstr) : bool :=
  startsWith entry [dot] || includes IGNORE entry.

(** The body of the loop of [collectFiles] for one [entry] of the
    directory [dir], where [n] is what [statSync(fullPath)] describes:
    the files this entry adds to [files]. *)
Fixpoint visit (dir : list jstr) (entry : jstr) (n : node) {struct n}
  : list SourceFile :=
  if skipped entry then []
  else
    match n with
    | Dir entries =>
        flat_map (fun e => visit (dir ++ [entry]) (fst e) (snd e)) entries
    | File size text =>
        if includes EXTENSIONS (extname entry) && (size <? 100000)%N
        then [{| path := relative_path dir entry; content := text |}]
        else []
    end.

(** [collectFiles(dir, root)] on the entries of [dir]; the first
    argument is the position of [dir] below [root] (empty for the call
    of the action, where [root = dir]). *)
Definition collectFiles (dir : list jstr) (entries : list (jstr * node))
  : list SourceFile :=
  flat_map (fun e => visit dir (fst e) (snd e)) entries.

(** [resides t names n]: following the names [names] from the node [t],
    one directory after the other, leads to the node [n]. *)
Inductive resides : node -> list jstr -> node -> Prop :=
| resides_here : forall n, resides n [] n
| resides_step : forall entries name child names n,
    In (name, child) entries ->
    resides child names n ->
    resides (Dir entries) (name :: names) n.

End Collector.

(** ** ContextAssembler *)

Module Assembler.
Import Collector.

(** [`### ${f.path}\n\`\`\`\n${f.content}\n\`\`\``] *)
Definition block (f : SourceFile) : jstr :=
  lit "### " ++ path f ++ [newline] ++ fence ++ [newline]
    ++ content f ++ [newline] ++ fence.

(** [files.map(f => ...).join('\n\n')] *)
Definition codeContext (files : list SourceFile) : jstr :=
  join [newline; newline] (map block files).

End Assembler.

(** ** The environment and the effects of the program *)

Module Cli.
Import Collector Assembler.

Inductive role : Type := system | user | assistant.

(** [{ role, content }] *)
Record message : Type := { role_of : role; content : jstr }.

(** What [await openai.chat.completions.create(...)] gives, as far as
    the program reads it: the content of the first choice (possibly
    [null]) and the total of tokens (possibly absent), or an error
    thrown with its (possibly absent) message. *)
Inductive api_result : Type :=
| ApiOk (text : option jstr) (total_tokens : option N)
| ApiThrow (error_message : option jstr).

(** The prompts of the program. *)
Inductive prompt : Type :=
| AskConsent | AskDirectory | AskOutput | AskBaseUrl | AskHelp
| AskQuestion.

(** What a prompt returns: the cancel symbol ([p.isCancel] holds of it),
    a boolean or a string. *)
Inductive answer : Type :=
| Cancel
| Bool (b : bool)
| Text (s : jstr).

Definition confirm_answer (a : option bool) : answer :=
  match a with None => Cancel | Some b => Bool b end.

Definition text_answer (a : option jstr) : answer :=
  match a with None => Cancel | Some s => Text s end.

(** The effects of a run that can be observed from outside, in the order
    in which they happen. *)
Inductive event : Type :=
| Prompted (p : prompt) (a : answer)
| Rejected (p : prompt) (s : jstr)      (* a submission refused by [validate] *)
| Request (model : jstr) (messages : list message) (max_tokens : N)
| WriteFile (file : jstr) (data : jstr)
| Warned (msg : jstr)                    (* [p.log.warn] *)
| SpinnerFail (msg : jstr)               (* [spinner.fail] *)
| LogError (msg : jstr).                 (* [p.log.error] *)

Definition is_request (e : event) : bool :=
  match e with Request _ _ _ => true | _ => false end.

Definition is_write (e : event) : bool :=
  match e with WriteFile _ _ => true | _ => false end.

Definition is_prompt (e : event) : bool :=
  match e with Prompted _ _ => true | _ => false end.

(** The four steps that resolve the parameters of a run. *)
Definition param_step (p : prompt) : bool :=
  match p with
  | AskConsent | AskDirectory | AskOutput | AskBaseUrl => true
  | AskHelp | AskQuestion => false
  end.

(** A cancellation at one of these steps. *)
Definition is_param_cancel (ev : event) : bool :=
  match ev with
  | Prompted p Cancel => param_step p
  | _ => false
  end.

(** The user cancelled at one of these steps. *)
Definition cancelled (tr : list event) : bool :=
  existsb is_param_cancel tr.

(** No completion request and no write to a file among the events. *)
Definition quiet (tr : list event) : bool :=
  forallb (fun ev => negb (is_request ev) && negb (is_write ev)) tr.

(** The number of completion requests issued so far. *)
Definition requests (tr : list event) : nat :=
  List.length (filter is_request tr).

(** The user at the terminal: what each prompt of the program returns
    when it is shown.  [None] is a cancellation.  The directory prompt
    has a [validate] function and takes submissions until one passes;
    the question prompt is shown once per turn of the loop. *)
Record user_script : Type := {
  consent : option bool;
  dir_inputs : list (option jstr);
  output_input : option jstr;
  url_input : option jstr;
  want_help : option bool;
  questions : list (option jstr)
}.

(** The command line: the positional argument and the options. *)
Record options : Type := {
  output : option jstr;
  apiKey : option jstr;
  model : jstr;
  baseUrl : option jstr;
  yes : bool
}.

Record env : Type := {
  OPENAI_API_KEY : option jstr;          (* [process.env.OPENAI_API_KEY] *)
  fs : jstr -> option node;              (* what a path designates *)
  writable : jstr -> bool;               (* [writeFileSync] succeeds *)
  write_error : option jstr;             (* the message of its error *)
  api : nat -> api_result;               (* the result of the n-th request *)
  usr : user_script
}.

(** How a run ends: [process.exit(code)], the return of the action (the
    process then ends with status 0), or a prompt that waits for an
    input the script does not contain. *)
Inductive outcome : Type :=
| Exit (code : Z)
| Returned
| Blocked.

Inductive res (A : Type) : Type :=
| Ok (a : A)
| Stop (o : outcome).
Arguments Ok {A} a.
Arguments Stop {A} o.

(** A computation of the program: it extends the trace of events and
    either gives a value or ends the run. *)
Definition M (A : Type) : Type := list event -> res A * list event.

Definition ret {A} (a : A) : M A := fun tr => (Ok a, tr).

Definition bind {A B} (m : M A) (k : A -> M B) : M B :=
  fun tr =>
    match m tr with
    | (Ok a, tr') => k a tr'
    | (Stop o, tr') => (Stop o, tr')
    end.

Definition emit (e : event) : M unit := fun tr => (Ok tt, tr ++ [e]).

Definition stop {A} (o : outcome) : M A := fun tr => (Stop o, tr).

(** [process.exit(code)] *)
Definition exit {A} (code : Z) : M A := stop (Exit code).

End Cli.

Declare Scope prog_scope.
Delimit Scope prog_scope with prog.
Notation "x <- m ;; k" := (Cli.bind m (fun x => k))
  (at level 61, m at next level, right associativity) : prog_scope.
Notation "m ;; k" := (Cli.bind m (fun _ => k))
  (at level 61, right associativity) : prog_scope.

(** ** QASession *)

Module QASession.
Import Cli.

Definition systemPrompt : jstr :=
  lit "You are a helpful assistant for Crow (https://usecrow.ai), an AI agent platform.

You help developers understand:
- OpenAPI specifications: what they are, how they describe REST APIs
- Crow's workflow: generate spec " ++ [8594%N] ++ lit " upload to app.usecrow.ai/integration/openapi "
  ++ [8594%N] ++ lit " endpoints become " ++ [34%N] ++ lit "actions" ++ [34%N] ++ lit "
- Actions: tools that the AI agent can call on behalf of users to interact with their API
- How Crow uses the OpenAPI spec to know what parameters to pass, what responses to expect

Be concise, friendly, and helpful. Keep answers to 2-3 sentences unless they ask for more detail.
If they ask something unrelated to Crow or OpenAPI, politely redirect them.".

(** The variables of the loop: the [messages] array, and the events of
    the run so far. *)
Record qa_state : Type := {
  messages : list message;
  trace : list event
}.

(** The loop was left by [break], or it waits at its prompt. *)
Inductive qa_status : Type := Ended | Awaiting.

Definition log (e : event) (st : qa_state) : qa_state :=
  {| messages := messages st; trace := trace st ++ [e] |}.

(** [messages.push({ role, content })] *)
Definition push (r : role) (c : jstr) (st : qa_state) : qa_state :=
  {| messages := messages st ++ [{| role_of := r; content := c |}];
     trace := trace st |}.

(** [p.isCancel(question) || !question || question.toLowerCase() === 'done'] *)
Definition ends_session (question : option jstr) : bool :=
  match question with
  | None => true
  | Some q => negb (truthy (Some q)) || eqb (toLowerCase q) (lit "done")
  end.

(** The three ways to end the session: a cancellation, an empty input,
    the word [done] in any letter case. *)
Definition session_ending (question : option jstr) : Prop :=
  question = None
  \/ question = Some []
  \/ exists q, question = Some q /\ any_casing (lit "done") q.

(** One iteration of [while (true)] after the prompt has returned
    [question], which does not end the session: the request and what
    follows it. *)
Definition turn (api : nat -> api_result) (model : jstr) (q : jstr)
           (st : qa_state) : qa_state :=
  let st := push user q st in
  let result := api (requests (trace st)) in
  let st := log (Request model (messages st) 300) st in
  match result with
  | ApiOk text _ =>
      let answer :=
        or_default text (lit "Sorry, I couldn't generate a response.") in
      push assistant answer st
  | ApiThrow error_message =>
      let st := log (SpinnerFail (lit "Failed to get response")) st in
      log (LogError (or_default error_message (lit "Unknown error"))) st
  end.

(** The loop of [runQA] against the successive returns of its prompt. *)
Fixpoint loop (api : nat -> api_result) (model : jstr)
         (script : list (option jstr)) (st : qa_state)
  : qa_status * qa_state :=
  match script with
  | [] => (Awaiting, st)
  | question :: script' =>
      let st := log (Prompted AskQuestion (text_answer question)) st in
      if ends_session question then (Ended, st)
      else loop api model script' (turn api model (or_default question []) st)
  end.

Definition initial (tr : list event) : qa_state :=
  {| messages := [{| role_of := system; content := systemPrompt |}];
     trace := tr |}.

(** [runQA(openai, model)] started after the events [tr]. *)
Definition runQA (api : nat -> api_result) (model : jstr)
           (script : list (option jstr)) (tr : list event)
  : qa_status * qa_state :=
  loop api model script (initial tr).

End QASession.

(** ** The action of the program *)

Module Program.
Import Collector Assembler Cli QASession.
Local Open Scope prog_scope.

Definition existsSync (e : env) (p : jstr) : bool :=
  match fs e p with Some _ => true | None => false end.

(** [p.confirm] and [p.text]: the prompt is shown and returns what the
    user gives. *)
Definition confirm (p : prompt) (a : option bool) : M (option bool) :=
  emit (Prompted p (confirm_answer a)) ;; ret a.

Definition text (p : prompt) (a : option jstr) : M (option jstr) :=
  emit (Prompted p (text_answer a)) ;; ret a.

(** [p.text] with a [validate] function: a submission that [validate]
    refuses leaves the prompt open. *)
Fixpoint text_validated (p : prompt) (valid : jstr -> bool)
         (inputs : list (option jstr)) : M (option jstr) :=
  match inputs with
  | [] => stop Blocked
  | None :: _ => emit (Prompted p Cancel) ;; ret None
  | Some v :: inputs' =>
      if valid v then emit (Prompted p (Text v)) ;; ret (Some v)
      else emit (Rejected p v) ;; text_validated p valid inputs'
  end.

(** [await openai.chat.completions.create({ model, messages, max_tokens })] *)
Definition create (e : env) (model : jstr) (messages : list message)
           (max_tokens : N) : M api_result :=
  fun tr => (Ok (api e (requests tr)),
             tr ++ [Request model messages max_tokens]).

Definition generationPrompt : jstr :=
  lit "You are an expert at generating OpenAPI 3.0 specifications. 
Analyze the provided backend code and generate a complete, valid OpenAPI 3.0.3 YAML spec.
Include: all endpoints, HTTP methods, path/query parameters, request bodies, response schemas with properties.
Use descriptive summaries. Infer types from the code. Return ONLY valid YAML, no markdown or explanation.".

(** The [catch] block of the action. *)
Definition generationFailed {A} (error_message : option jstr) : M A :=
  emit (SpinnerFail (lit "Generation failed")) ;;
  (match error_message with
   | Some m =>
       if contains m (lit "401") then emit (LogError (lit "Invalid API key"))
       else if contains m (lit "429")
            then emit (LogError (lit "Rate limited - too many requests"))
            else emit (LogError (or_default error_message (lit "Unknown error")))
   | None => emit (LogError (lit "Unknown error"))
   end) ;;
  exit 1.

(** [stat.isDirectory() ? collectFiles(targetDir) : [{ path: targetDir,
    content: readFileSync(targetDir, 'utf-8') }]] *)
Definition scan (stat : node) (targetDir : jstr) : list SourceFile :=
  match stat with
  | Dir entries => collectFiles [] entries
  | File _ text => [{| path := targetDir; Collector.content := text |}]
  end.

Definition quoted (s : jstr) : jstr := [34%N] ++ s ++ [34%N].

(** [runQA] as a step of the action. *)
Definition runQA_step (e : env) (model : jstr) : M unit :=
  fun tr =>
    match runQA (api e) model (questions (usr e)) tr with
    | (Ended, st) => (Ok tt, trace st)
    | (Awaiting, st) => (Stop Blocked, trace st)
    end.

(** The [try] block of the action. *)
Definition generate (e : env) (opts : options) (files : list SourceFile)
           (outputFile baseUrl : jstr) : M unit :=
  let codeContext := codeContext files in
  response <-
    create e (model opts)
      [{| role_of := system; Cli.content := generationPrompt |};
       {| role_of := user;
          Cli.content :=
            lit "Generate an OpenAPI spec for this backend code. Base URL: "
              ++ baseUrl ++ [newline; newline] ++ codeContext |}]
      16000 ;;
  match response with
  | ApiThrow error_message => generationFailed error_message
  | ApiOk text _ =>
      let yaml := normalize text in
      if writable e outputFile then
        emit (WriteFile outputFile yaml) ;;
        (if negb (yes opts) then
           wantHelp <- confirm AskHelp (want_help (usr e)) ;;
           match wantHelp with
           | Some true => runQA_step e (model opts)
           | _ => ret tt
           end
         else ret tt)
      else generationFailed (write_error e)
  end.

(** The check of the API key:
    [const apiKey = opts.apiKey || process.env.OPENAI_API_KEY;
     if (!apiKey) { ...; process.exit(1); }] *)
Definition checkApiKey (opts : options) (e : env) : M unit :=
  let apiKey := or_else (apiKey opts) (OPENAI_API_KEY e) in
  if negb (truthy apiKey)
  then emit (LogError (lit "Missing OpenAI API key")) ;; exit 1
  else ret tt.

(** The consent:
    [if (!opts.yes) { const consent = await p.confirm(...);
       if (p.isCancel(consent) || !consent) { ...; process.exit(0); } }] *)
Definition awaitConsent (opts : options) (e : env) : M unit :=
  if negb (yes opts) then
    consent <- confirm AskConsent (consent (usr e)) ;;
    match consent with
    | Some true => ret tt
    | _ => exit 0
    end
  else ret tt.

(** The directory, from [let targetDir = directory;] to
    [targetDir = targetDir || '.';]. *)
Definition awaitDirectory (directory : option jstr) (opts : options)
           (e : env) : M jstr :=
  targetDir <-
    (match directory with
     | Some d =>
         if truthy directory && negb (existsSync e d) && negb (yes opts)
         then emit (Warned (lit "Can't find " ++ quoted d)) ;; ret None
         else ret directory
     | None => ret None
     end) ;;
  targetDir <-
    (if negb (truthy targetDir) && negb (yes opts) then
       dirInput <-
         text_validated AskDirectory (existsSync e)
           (dir_inputs (usr e)) ;;
       match dirInput with
       | None => exit 0
       | Some _ => ret dirInput
       end
     else ret targetDir) ;;
  ret (or_default targetDir (lit ".")).

(** The output file, from [let outputFile = opts.output;] to
    [outputFile = outputFile || 'openapi.yaml';]. *)
Definition awaitOutputPath (opts : options) (e : env) : M jstr :=
  outputFile <-
    (if negb (truthy (output opts)) && negb (yes opts) then
       outputInput <- text AskOutput (output_input (usr e)) ;;
       match outputInput with
       | None => exit 0
       | Some _ => ret outputInput
       end
     else ret (output opts)) ;;
  ret (or_default outputFile (lit "openapi.yaml")).

(** The base URL, from [let baseUrl = opts.baseUrl;] to
    [baseUrl = baseUrl || 'http://localhost:3000';]. *)
Definition awaitBaseUrl (opts : options) (e : env) : M jstr :=
  baseUrl <-
    (if negb (truthy (baseUrl opts)) && negb (yes opts) then
       urlInput <- text AskBaseUrl (url_input (usr e)) ;;
       match urlInput with
       | None => exit 0
       | Some _ => ret urlInput
       end
     else ret (baseUrl opts)) ;;
  ret (or_default baseUrl (lit "http://localhost:3000")).

(** The function given to [program.action]; the steps above are its
    successive parts. *)
Definition action (directory : option jstr) (opts : options) (e : env)
  : M unit :=
  checkApiKey opts e ;;
  awaitConsent opts e ;;
  targetDir <- awaitDirectory directory opts e ;;
  match fs e targetDir with
  | None =>
      (* [if (!existsSync(targetDir))] *)
      emit (LogError (lit "Can't find " ++ quoted targetDir)) ;; exit 1
  | Some stat =>
      (match stat with
       | Dir _ => ret tt
       | File _ _ =>
           emit (Warned (quoted targetDir
                           ++ lit " is a file, not a directory. I'll analyze just this file."))
       end) ;;
      outputFile <- awaitOutputPath opts e ;;
      baseUrl <- awaitBaseUrl opts e ;;
      let files := scan stat targetDir in
      match files with
      | [] => emit (LogError (lit "No source files found")) ;; exit 1
      | _ :: _ => generate e opts files outputFile baseUrl
      end
  end.

(** A run of the program from the command line: how it ends, and its
    events. *)
Definition run (directory : option jstr) (opts : options) (e : env)
  : outcome * list event :=
  match action directory opts e [] with
  | (Ok _, tr) => (Returned, tr)
  | (Stop o, tr) => (o, tr)
  end.

(** A specification of a computation: from a trace that satisfies [P],
    a value is given with a trace that satisfies [Q], or the run ends
    with an outcome and a trace that satisfy [S]. *)
Definition triple {A} (P : list event -> Prop) (m : M A)
           (Q : A -> list event -> Prop)
           (S : outcome -> list event -> Prop) : Prop :=
  forall tr, P tr ->
             match m tr with
             | (Ok a, tr') => Q a tr'
             | (Stop o, tr') => S o tr'
             end.

(** What a write to a file holds is the normalised content of a
    completion response. *)
Definition written_ok (ev : event) : Prop :=
  match ev with
  | WriteFile _ data => exists text, data = normalize text
  | _ => True
  end.

Definition Written (tr : list event) : Prop := Forall written_ok tr.

(** Before the generation: nothing was requested or written and nobody
    cancelled. *)
Definition Resolving (tr : list event) : Prop :=
  quiet tr = true /\ cancelled tr = false.

(** During the generation: nobody cancelled at a parameter step. *)
Definition Generating (tr : list event) : Prop := cancelled tr = false.

(** When the run ends after a cancellation, it ends with status 0 and
    nothing was requested or written. *)
Definition CleanAbort (o : outcome) (tr : list event) : Prop :=
  cancelled tr = true -> o = Exit 0 /\ quiet tr = true.

End Program.

(** ** Scenarios

    The data of the scenarios of the specification, used in the examples
    below. *)

Module Scenario.
Import Collector Cli.

(** The directory [./api]. *)
Definition api_dir : node :=
  Dir [(lit "users.py", File 40 (lit "def users(): pass"));
       (lit "node_modules",
         Dir [(lit "ignored.py", File 10 (lit "x = 1"))]);
       (lit "huge.py", File 150000 (lit "..."))].

(** A disk with this directory and one large file of another type. *)
Definition disk (p : jstr) : option node :=
  if eqb p (lit "./api") then Some api_dir
  else if eqb p (lit "notes.txt")
       then Some (File 250000 (lit "GET /users lists the users"))
       else None.

(** The stubbed completion response. *)
Definition fenced_response : api_result :=
  ApiOk (Some (fence ++ lit "yaml" ++ [newline] ++ lit "openapi: 3.0.3"
                 ++ [newline] ++ fence))
        (Some 1200%N).

Definition machine (u : user_script) : env :=
  {| OPENAI_API_KEY := Some (lit "sk-test");
     fs := disk;
     writable := fun _ => true;
     write_error := None;
     api := fun _ => fenced_response;
     usr := u |}.

(** A user who answers nothing: a prompt that is shown to this user
    returns a cancellation. *)
Definition silent : user_script :=
  {| consent := None; dir_inputs := []; output_input := None;
     url_input := None; want_help := None; questions := [] |}.

(** A user who consents, gives the directory at the second attempt, the
    output file, and cancels at the base URL. *)
Definition cancels_at_url : user_script :=
  {| consent := Some true;
     dir_inputs := [Some (lit "./nowhere"); Some (lit "./api")];
     output_input := Some (lit "out.yaml");
     url_input := None;
     want_help := None;
     questions := [] |}.

(** The options [--yes --output out.yaml]. *)
Definition yes_output : options :=
  {| output := Some (lit "out.yaml"); apiKey := None;
     model := lit "gpt-4o-mini"; baseUrl := None; yes := true |}.

(** No option. *)
Definition interactive : options :=
  {| output := None; apiKey := None; model := lit "gpt-4o-mini";
     baseUrl := None; yes := false |}.

End Scenario.

(** ** Well-named trees

    In a directory of a file system the names of the entries are pairwise
    distinct, and a name holds no separator. *)

Module Tree.
Import Collector.

Inductive well_named : node -> Prop :=
| well_named_file : forall size text, well_named (File size text)
| well_named_dir : forall entries,
    NoDup (map fst entries) ->
    (forall name child, In (name, child) entries -> ~ In slash name) ->
    (forall name child, In (name, child) entries -> well_named child) ->
    well_named (Dir entries).

End Tree.

(** ** The shape of a session

    What the loop of [runQA] adds to the history for one request, and the
    events it produces. *)

Module Dialogue.
Import Cli QASession.

Definition system_message : message :=
  {| role_of := system; content := systemPrompt |}.

(** The messages of one turn: the question, and the answer when the
    request has given one. *)
Definition exchange (t : jstr * option jstr) : list message :=
  {| role_of := user; content := fst t |}
  :: match snd t with
     | Some a => [{| role_of := assistant; content := a |}]
     | None => []
     end.

(** An event of a session: the prompt of the loop, a request of 300
    tokens at most whose messages start with the system instruction and
    end with a question of the user, or a report of failure. *)
Definition session_event (model : jstr) (ev : event) : Prop :=
  match ev with
  | Prompted AskQuestion _ => True
  | Request m msgs k =>
      m = model /\ k = 300%N
      /\ exists h q,
          msgs = system_message :: h ++ [{| role_of := user; content := q |}]
  | SpinnerFail _ => True
  | LogError _ => True
  | _ => False
  end.

End Dialogue.

(** ** The shape of a run

    The values the action resolves without the help of the file system,
    the messages it sends and reports, and the three shapes of the events
    of a run: stopped before the generation, failed generation, written
    file. *)

Module Shape.
Import Collector Assembler Cli QASession Program Dialogue.

(** The output file: the option when it is given, else what the prompt
    returns when prompts are allowed, else (and for an empty value) the
    default name. *)
Definition resolved_output (opts : options) (e : env) : jstr :=
  or_default
    (if negb (truthy (output opts)) && negb (yes opts)
     then output_input (usr e) else output opts)
    (lit "openapi.yaml").

(** The base URL, resolved in the same way. *)
Definition resolved_baseUrl (opts : options) (e : env) : jstr :=
  or_default
    (if negb (truthy (baseUrl opts)) && negb (yes opts)
     then url_input (usr e) else baseUrl opts)
    (lit "http://localhost:3000").

(** The two messages of the request of the generation. *)
Definition generation_messages (baseUrl : jstr) (files : list SourceFile)
  : list message :=
  [{| role_of := system; Cli.content := generationPrompt |};
   {| role_of := user;
      Cli.content :=
        lit "Generate an OpenAPI spec for this backend code. Base URL: "
          ++ baseUrl ++ [newline; newline] ++ codeContext files |}].

(** The line that the [catch] block logs for an error. *)
Definition failure_report (error_message : option jstr) : jstr :=
  match error_message with
  | Some m =>
      if contains m (lit "401") then lit "Invalid API key"
      else if contains m (lit "429")
           then lit "Rate limited - too many requests"
           else or_default error_message (lit "Unknown error")
  | None => lit "Unknown error"
  end.

(** An event that follows the write: the offer of the session, or an
    event of the session. *)
Definition after_write_event (model : jstr) (ev : event) : Prop :=
  match ev with
  | Prompted AskHelp _ => True
  | _ => session_event model ev
  end.

Inductive run_shape (opts : options) (e : env)
  : outcome -> list event -> Prop :=
| shape_stopped : forall o tr,
    quiet tr = true ->
    o <> Returned ->
    run_shape opts e o tr
| shape_failed : forall pre targetDir stat error_message,
    quiet pre = true ->
    fs e targetDir = Some stat ->
    scan stat targetDir <> [] ->
    (api e 0 = ApiThrow error_message
     \/ exists text tokens,
         api e 0 = ApiOk text tokens
         /\ writable e (resolved_output opts e) = false
         /\ error_message = write_error e) ->
    run_shape opts e (Exit 1)
      (pre ++ [Request (model opts)
                 (generation_messages (resolved_baseUrl opts e)
                    (scan stat targetDir)) 16000;
               SpinnerFail (lit "Generation failed");
               LogError (failure_report error_message)])
| shape_written : forall pre targetDir stat text tokens post o,
    quiet pre = true ->
    fs e targetDir = Some stat ->
    scan stat targetDir <> [] ->
    api e 0 = ApiOk text tokens ->
    writable e (resolved_output opts e) = true ->
    Forall (after_write_event (model opts)) post ->
    (yes opts = true -> post = []) ->
    o = Returned \/ o = Blocked ->
    run_shape opts e o
      (pre ++ Request (model opts)
                (generation_messages (resolved_baseUrl opts e)
                   (scan stat targetDir)) 16000
           :: WriteFile (resolved_output opts e) (normalize text)
           :: post).

(** No request and no write so far. *)
Definition Quiet (tr : list event) : Prop := quiet tr = true.

End Shape.

(** ** What a run asks

    The condition under which each prompt of the action is shown, and the
    answer it returns. *)

Module Asking.
Import Collector Cli QASession Program.

Definition asked_for (directory : option jstr) (opts : options) (e : env)
           (ev : event) : Prop :=
  match ev with
  | Prompted p a =>
      yes opts = false
      /\ match p with
         | AskConsent => a = confirm_answer (consent (usr e))
         | AskDirectory =>
             truthy directory = false
             \/ exists d, directory = Some d /\ existsSync e d = false
         | AskOutput =>
             truthy (output opts) = false
             /\ a = text_answer (output_input (usr e))
         | AskBaseUrl =>
             truthy (baseUrl opts) = false
             /\ a = text_answer (url_input (usr e))
         | AskHelp => a = confirm_answer (want_help (usr e))
         | AskQuestion => want_help (usr e) = Some true
         end
  | Rejected p s =>
      p = AskDirectory /\ yes opts = false /\ existsSync e s = false
  | _ => True
  end.

Definition Asked (directory : option jstr) (opts : options) (e : env)
           (tr : list event) : Prop :=
  Forall (asked_for directory opts e) tr.

End Asking.

(** ** Why a run exits

    The last event of a run that ends with [process.exit]: with status 0
    the answer of a prompt for a parameter that was a cancellation or a
    refusal, with status 1 the report of an error. *)

Module Exits.
Import Cli.

Definition exit_reason (o : outcome) (tr : list event) : Prop :=
  match o with
  | Exit code =>
      exists pre ev,
        tr = pre ++ [ev]
        /\ ((code = 0%Z
             /\ exists p a,
                 ev = Prompted p a /\ param_step p = true
                 /\ (a = Cancel \/ a = Bool false))
            \/ (code = 1%Z /\ exists msg, ev = LogError msg))
  | _ => True
  end.

Definition Anything (tr : list event) : Prop := True.

End Exits.

(* ------------------------------------------------------------------ *)
(** * Part II: properties *)
(* ------------------------------------------------------------------ *)

(** ** Strings *)

Section StringFacts.

Lemma eqb_true_iff (a b : jstr) : eqb a b = true <-> a = b.
Proof.
  unfold eqb. destruct (jstr_eq_dec a b); split; congruence.
Qed.

Lemma eqb_refl (a : jstr) : eqb a a = true.
Proof. apply eqb_true_iff. reflexivity. Qed.

Lemma startsWith_app (p t : jstr) : startsWith (p ++ t) p = true.
Proof.
  induction p as [|c p IH]; simpl.
  - destruct t; reflexivity.
  - rewrite N.eqb_refl. exact IH.
Qed.


Lemma contains_here (s p : jstr) :
  startsWith s p = true -> contains s p = true.
Proof. intros H. destruct s; cbn [contains]; rewrite H; reflexivity. Qed.

Lemma contains_app (a p b : jstr) : contains (a ++ p ++ b) p = true.
Proof.
  induction a as [|x a IH].
  - change ([] ++ p ++ b) with (p ++ b).
    apply contains_here. apply (startsWith_app p b).
  - simpl. rewrite IH. apply orb_true_r.
Qed.



Lemma trimStart_split (s : jstr) :
  exists w, s = w ++ trimStart s /\ forallb is_ws w = true.
Proof.
  induction s as [|c s (w & E & W)]; simpl.
  - exists []. split; reflexivity.
  - destruct (is_ws c) eqn:Hc.
    + exists (c :: w). simpl. rewrite Hc, W. split; [f_equal; exact E|reflexivity].
    + exists []. split; reflexivity.
Qed.

Lemma trimStart_head (s : jstr) : starts_with_ws (trimStart s) = false.
Proof.
  induction s as [|c s IH]; simpl; [reflexivity|].
  destruct (is_ws c) eqn:Hc; [exact IH|]. simpl. exact Hc.
Qed.

Lemma trimEnd_split (s : jstr) :
  exists w, s = trimEnd s ++ w /\ forallb is_ws w = true.
Proof.
  unfold trimEnd. destruct (trimStart_split (rev s)) as (w & E & W).
  exists (rev w). split.
  - rewrite <- rev_app_distr, <- E, rev_involutive. reflexivity.
  - rewrite forallb_forall in *. intros x Hx. apply W.
    apply in_rev. exact Hx.
Qed.

Lemma trimEnd_last (s : jstr) : ends_with_ws (trimEnd s) = false.
Proof.
  unfold ends_with_ws, trimEnd. rewrite rev_involutive.
  apply trimStart_head.
Qed.

Lemma trimEnd_head (s : jstr) :
  starts_with_ws s = false -> starts_with_ws (trimEnd s) = false.
Proof.
  intros H. destruct (trimEnd_split s) as (w & E & _).
  destruct (trimEnd s) as [|c t]; [reflexivity|].
  rewrite E in H. exact H.
Qed.

Lemma trim_head (s : jstr) : starts_with_ws (trim s) = false.
Proof. apply trimEnd_head, trimStart_head. Qed.

Lemma trim_last (s : jstr) : ends_with_ws (trim s) = false.
Proof. apply trimEnd_last. Qed.

(** [trim] keeps a part of the text. *)
Lemma trim_split (s : jstr) : exists a b, s = a ++ trim s ++ b.
Proof.
  destruct (trimStart_split s) as (a & Ea & _).
  destruct (trimEnd_split (trimStart s)) as (b & Eb & _).
  exists a, b. unfold trim. rewrite <- Eb. exact Ea.
Qed.





End StringFacts.

(** ** The regular expressions of the program *)

Section RegexFacts.

Ltac cases_N :=
  repeat match goal with
    | |- context [N.leb ?a ?b] => destruct (N.leb_spec a b)
    | |- context [N.eqb ?a ?b] => destruct (N.eqb_spec a b)
    | H : context [N.leb ?a ?b] |- _ => destruct (N.leb_spec a b)
    | H : context [N.eqb ?a ?b] |- _ => destruct (N.eqb_spec a b)
    end;
  simpl in *; try congruence; try lia.

Lemma canon_newline (x : N) : canon_eqb newline x = (x =? newline)%N.
Proof. unfold canon_eqb, upper, newline. cases_N. Qed.

Lemma canon_backtick (x : N) : canon_eqb backtick x = (x =? backtick)%N.
Proof. unfold canon_eqb, upper, backtick. cases_N. Qed.

(** For a lower case ASCII letter of the pattern, the subject matches
    when its lower case form is that letter. *)
Lemma canon_letter (p x : N) :
  (97 <= p <= 122)%N -> canon_eqb p x = (lower x =? p)%N.
Proof. intros Hp. unfold canon_eqb, upper, lower. cases_N. Qed.

(** The closing expression matches at a position exactly when what
    remains of the subject is the marker, with or without a line break
    before it. *)
Lemma rmatch_close (b : bool) (s : jstr) :
  rmatch re_close b s accept
  = if eqb s (newline :: fence) || eqb s fence then Some [] else None.
Proof.
  unfold re_close. cbn [rmatch].
  destruct (eqb s (newline :: fence) || eqb s fence) eqn:E.
  - apply orb_true_iff in E.
    destruct E as [E|E]; apply eqb_true_iff in E; subst s; reflexivity.
  - apply orb_false_iff in E. destruct E as [E1 E2].
    assert (N1 : s <> newline :: fence)
      by (intros ->; rewrite eqb_refl in E1; discriminate).
    assert (N2 : s <> fence)
      by (intros ->; rewrite eqb_refl in E2; discriminate).
    clear E1 E2. unfold fence in *.
    repeat (rewrite ?canon_newline, ?canon_backtick;
            match goal with
            | |- context [match ?l with [] => _ | _ :: _ => _ end] =>
                is_var l; destruct l
            | |- context [N.eqb ?a ?c] =>
                destruct (N.eqb_spec a c); subst
            end; cbn [rmatch accept]; try reflexivity; try congruence).
Qed.


Lemma search_close_inv (s : jstr) :
  forall b pre t,
    search re_close b pre s = Some t -> exists p, s = p ++ fence.
Proof.
  induction s as [|x s IH]; intros b pre t; cbn [search];
    rewrite rmatch_close.
  - discriminate.
  - destruct (eqb (x :: s) (newline :: fence)) eqn:E1.
    { apply eqb_true_iff in E1. intros _. exists [newline].
      exact E1. }
    destruct (eqb (x :: s) fence) eqn:E2.
    { apply eqb_true_iff in E2. intros _. exists []. exact E2. }
    simpl. intros H. destruct (IH _ _ _ H) as [p ->].
    exists (x :: p). reflexivity.
Qed.


(** It changes nothing in a text that has no marker. *)
Lemma replace_close_none (s : jstr) :
  has_fence s = false -> replace_empty re_close s = s.
Proof.
  intros H. unfold replace_empty.
  destruct (search re_close true [] s) eqn:E; [|reflexivity].
  apply search_close_inv in E. destruct E as [p ->].
  unfold has_fence in H.
  rewrite <- (app_nil_r (p ++ fence)), <- app_assoc in H.
  rewrite contains_app in H. discriminate.
Qed.

(** The opening expression does not match after the first position. *)
Lemma search_open_later (s : jstr) :
  forall pre, search re_open false pre s = None.
Proof.
  induction s as [|x s IH]; intros pre; cbn [search].
  - reflexivity.
  - unfold re_open at 1. cbn [rmatch]. apply IH.
Qed.

Lemma replace_open_here (s : jstr) :
  replace_empty re_open s
  = match rmatch re_open true s accept with Some t => t | None => s end.
Proof.
  unfold replace_empty. destruct s as [|x s]; cbn [search].
  - destruct (rmatch re_open true [] accept); reflexivity.
  - destruct (rmatch re_open true (x :: s) accept); [reflexivity|].
    rewrite search_open_later. reflexivity.
Qed.

Lemma is_yaml_tag_inv (tag : jstr) :
  is_yaml_tag tag = true ->
  (exists y a m l, tag = [y; a; m; l] /\ lower y = 121 /\ lower a = 97
                   /\ lower m = 109 /\ lower l = 108)%N
  \/ (exists y m l, tag = [y; m; l] /\ lower y = 121 /\ lower m = 109
                    /\ lower l = 108)%N.
Proof.
  unfold is_yaml_tag, toLowerCase. intros H.
  apply orb_true_iff in H. destruct H as [H|H]; apply eqb_true_iff in H.
  - left. destruct tag as [|y [|a [|m [|l [|? ?]]]]]; try discriminate.
    injection H as Hy Ha Hm Hl. exists y, a, m, l. auto.
  - right. destruct tag as [|y [|m [|l [|? ?]]]]; try discriminate.
    injection H as Hy Hm Hl. exists y, m, l. auto.
Qed.

Lemma rmatch_opt_newline (b : bool) (s : jstr) :
  rmatch (Opt (Chr newline)) b s accept = Some (drop_nl s).
Proof.
  destruct s as [|x s]; cbn [rmatch drop_nl accept]; [reflexivity|].
  rewrite canon_newline. destruct (x =? newline)%N; reflexivity.
Qed.

(** The opening replacement removes the marker, the tag and one line
    break after it. *)
Lemma replace_open_tag (tag rest : jstr) :
  is_yaml_tag tag = true ->
  replace_empty re_open (fence ++ tag ++ rest) = drop_nl rest.
Proof.
  intros H. rewrite replace_open_here.
  pose proof (rmatch_opt_newline false rest) as Hn.
  destruct (is_yaml_tag_inv _ H)
    as [(y & a & m & l & -> & Hy & Ha & Hm & Hl)
       |(y & m & l & -> & Hy & Hm & Hl)];
    unfold re_open, fence; cbn [app rmatch];
    rewrite !canon_backtick, !N.eqb_refl;
    rewrite ?(canon_letter 121), ?(canon_letter 97), ?(canon_letter 109),
      ?(canon_letter 108) by lia;
    rewrite ?Hy, ?Ha, ?Hm, ?Hl; simpl N.eqb; cbv iota.
  - cbn [rmatch] in Hn. rewrite Hn. reflexivity.
  - cbn [rmatch] in Hn. rewrite Hn. reflexivity.
Qed.

(** It changes nothing in a text that does not begin with the marker
    followed by the letter y. *)
Lemma replace_open_none (s : jstr) :
  (forall c rest, s = fence ++ c :: rest -> lower c <> 121%N) ->
  replace_empty re_open s = s.
Proof.
  intros H. rewrite replace_open_here.
  unfold re_open. cbn [rmatch].
  destruct s as [|c1 [|c2 [|c3 [|c s]]]]; try reflexivity;
    rewrite ?canon_backtick;
    repeat match goal with
      | |- context [N.eqb ?a backtick] =>
          destruct (N.eqb_spec a backtick); subst; try reflexivity
      end.
  rewrite (canon_letter 121) by lia.
  destruct (N.eqb_spec (lower c) 121); [|reflexivity].
  exfalso. exact (H c s eq_refl e).
Qed.

End RegexFacts.

(** ** SpecGenerator: what is written *)

Section Normalisation.

Lemma or_default_some (r : jstr) : or_default (Some r) [] = r.
Proof. destruct r; reflexivity. Qed.







Lemma normalize_plain (r : jstr) :
  has_fence r = false -> normalize (Some r) = trim r.
Proof.
  intros H. unfold normalize. rewrite or_default_some.
  rewrite replace_open_none.
  - rewrite replace_close_none by exact H. reflexivity.
  - intros c rest ->. unfold has_fence in H.
    pose proof (contains_app [] fence (c :: rest)) as C.
    change ([] ++ fence ++ c :: rest) with (fence ++ c :: rest) in C.
    congruence.
Qed.

End Normalisation.




(** The same with a tag that is not [yaml] or [yml]. *)
Example other_tag_not_stripped :
  normalize (Some (fence ++ lit "json" ++ [newline] ++ lit "{}"
                     ++ [newline] ++ fence))
  = fence ++ lit "json" ++ [newline] ++ lit "{}".
Proof. vm_compute. reflexivity. Qed.

(** The scenario of the specification. *)
Example normalize_scenario :
  normalize (Some (fence ++ lit "yaml" ++ [newline] ++ lit "openapi: 3.0.3"
                     ++ [newline] ++ fence))
  = lit "openapi: 3.0.3".
Proof. vm_compute. reflexivity. Qed.

(** ** FileCollector *)

Section CollectorFacts.
Import Collector.

(** Induction on a tree, with the hypothesis for every entry of a
    directory. *)
Lemma node_tree_ind (P : node -> Prop)
      (HF : forall size text, P (File size text))
      (HD : forall entries,
          Forall (fun e => P (snd e)) entries -> P (Dir entries)) :
  forall n, P n.
Proof.
  fix IH 1. intros [size text|entries].
  - apply HF.
  - apply HD. induction entries as [|[name child] entries IHentries].
    + constructor.
    + constructor; [apply IH|exact IHentries].
Qed.

(** What [visit] adds for an entry is found below this entry, along
    names that are not passed over, has a supported extension and is
    below the size limit. *)
Lemma visit_sound (n : node) :
  forall dir entry f,
    In f (visit dir entry n) ->
    exists names size,
      path f = join [slash] (dir ++ entry :: names)
      /\ resides n names (File size (Collector.content f))
      /\ Forall (fun x => skipped x = false) (entry :: names)
      /\ includes EXTENSIONS (extname (last (entry :: names) [])) = true
      /\ (size < 100000)%N.
Proof.
  induction n as [size text|entries IH] using node_tree_ind;
    intros dir entry f; cbn [visit];
    destruct (skipped entry) eqn:Hs; try (intros []).
  - destruct (includes EXTENSIONS (extname entry)) eqn:He;
      [|intros []].
    destruct (N.ltb_spec size 100000) as [Hlt|Hge]; [|intros []].
    simpl. intros [<-|[]]. exists [], size. simpl.
    repeat split; auto using resides_here.
  - intros H. apply in_flat_map in H. destruct H as ([name child] & Hin & H).
    rewrite Forall_forall in IH. specialize (IH _ Hin _ _ _ H).
    destruct IH as (names & size & Hp & Hr & Hu & He & Hlt).
    exists (name :: names), size. simpl fst in *. simpl snd in *.
    rewrite <- app_assoc in Hp.
    repeat split; eauto using resides_step.
Qed.

End CollectorFacts.

(** C2.  Every entry that [collectFiles] returns for a directory is a file
    found in the tree along a path of names none of which is hidden or in
    the ignore set, its name has a supported extension, and its size is
    strictly below 100,000 bytes; a file of exactly 100,000 bytes is never
    collected. *)
Theorem collected_files_are_filtered (entries : list (jstr * Collector.node)) :
  (forall f,
      In f (Collector.collectFiles [] entries) ->
      exists names size,
        names <> []
        /\ Collector.path f = join [Collector.slash] names
        /\ Collector.resides (Collector.Dir entries) names
             (Collector.File size (Collector.content f))
        /\ Forall (fun x => Collector.skipped x = false) names
        /\ includes Collector.EXTENSIONS
             (Collector.extname (last names [])) = true
        /\ (size < 100000)%N)
  /\ (forall dir entry text,
         Collector.visit dir entry (Collector.File 100000 text) = []).
Proof.
  split.
  - intros f H. unfold Collector.collectFiles in H.
    apply in_flat_map in H. destruct H as ([entry n] & Hin & H).
    apply visit_sound in H.
    destruct H as (names & size & Hp & Hr & Hu & He & Hlt).
    exists (entry :: names), size. repeat split; auto.
    + discriminate.
    + eapply Collector.resides_step; eauto.
  - intros dir entry text. cbn [Collector.visit].
    destruct (Collector.skipped entry); [reflexivity|].
    rewrite andb_false_r. reflexivity.
Qed.

(** The scenario of the specification: [users.py] of 40 bytes,
    [node_modules/ignored.py] and [huge.py] of 150,000 bytes. *)
Example collect_scenario :
  Collector.collectFiles []
    [(lit "users.py", Collector.File 40 (lit "def users(): pass"));
     (lit "node_modules",
       Collector.Dir [(lit "ignored.py", Collector.File 10 (lit "x = 1"))]);
     (lit "huge.py", Collector.File 150000 (lit "..."))]
  = [{| Collector.path := lit "users.py";
        Collector.content := lit "def users(): pass" |}].
Proof. vm_compute. reflexivity. Qed.

Lemma collected_files_are_filtered_witness :
  exists names size,
    names <> []
    /\ lit "api/users.py" = join [Collector.slash] names
    /\ Collector.resides
         (Collector.Dir
            [(lit "api",
               Collector.Dir
                 [(lit "users.py", Collector.File 40 (lit "pass"))])])
         names (Collector.File size (lit "pass"))
    /\ Forall (fun x => Collector.skipped x = false) names
    /\ includes Collector.EXTENSIONS (Collector.extname (last names []))
       = true
    /\ (size < 100000)%N.
Proof.
  apply (proj1 (collected_files_are_filtered
                  [(lit "api",
                     Collector.Dir
                       [(lit "users.py", Collector.File 40 (lit "pass"))])])
           {| Collector.path := lit "api/users.py";
              Collector.content := lit "pass" |}).
  vm_compute. left. reflexivity.
Defined.

(** ** ContextAssembler *)

Section AssemblerFacts.
Import Collector Assembler.

Lemma SourceFile_eq_dec (f g : SourceFile) : {f = g} + {f <> g}.
Proof.
  destruct f as [p c], g as [q d].
  destruct (jstr_eq_dec p q) as [->|Hp];
    [destruct (jstr_eq_dec c d) as [->|Hc]|];
    [left; reflexivity|right; congruence|right; congruence].
Qed.

Lemma join_next (sep x : jstr) (l : list jstr) :
  l <> [] -> join sep (x :: l) = x ++ sep ++ join sep l.
Proof. destruct l; [congruence|reflexivity]. Qed.

Lemma join_cons (sep x : jstr) (l : list jstr) :
  join sep (x :: l) = x ++ List.concat (map (fun y => sep ++ y) l).
Proof.
  revert x. induction l as [|y l IH]; intros x.
  - simpl. rewrite app_nil_r. reflexivity.
  - change (join sep (x :: y :: l)) with (x ++ sep ++ join sep (y :: l)).
    rewrite IH. simpl. rewrite <- app_assoc. reflexivity.
Qed.

Lemma join_app_cons (sep x : jstr) (a b : list jstr) :
  join sep (a ++ x :: b)
  = List.concat (map (fun y => y ++ sep) a) ++ join sep (x :: b).
Proof.
  induction a as [|y a IH]; [reflexivity|].
  simpl app. rewrite join_next by (destruct a; discriminate).
  rewrite IH. simpl. rewrite <- !app_assoc. reflexivity.
Qed.

(** Two different sequences of the same length differ at a first
    place. *)
Lemma first_difference (l l' : list SourceFile) :
  List.length l = List.length l' -> l <> l' ->
  exists pre f r g r',
    l = pre ++ f :: r /\ l' = pre ++ g :: r' /\ f <> g.
Proof.
  revert l'. induction l as [|f l IH]; intros [|g l'] Hlen Hne;
    try discriminate; [congruence|].
  destruct (SourceFile_eq_dec f g) as [->|Hfg].
  - destruct (IH l') as (pre & f' & r & g' & r' & -> & -> & Hd).
    + simpl in Hlen. lia.
    + congruence.
    + exists (g :: pre), f', r, g', r'. auto.
  - exists [], f, l, g, l'. auto.
Qed.

(** A text is cut in one way at the first occurrence of a character. *)
Lemma split_at_first (x : N) (a b r1 r2 : jstr) :
  ~ In x a -> ~ In x b -> a ++ x :: r1 = b ++ x :: r2 -> a = b.
Proof.
  revert b. induction a as [|c a IH]; intros [|d b] Ha Hb E;
    simpl in *; try reflexivity.
  - injection E as E _. subst d. tauto.
  - injection E as E _. subst c. tauto.
  - injection E as -> E. f_equal. apply IH with (b := b); tauto.
Qed.

(** In the assembled text, what follows the common beginning of two
    file lists starts with the path of the next file. *)
Lemma codeContext_first_path (pre r r' : list SourceFile)
      (f g : SourceFile) :
  ~ In newline (path f) -> ~ In newline (path g) ->
  codeContext (pre ++ f :: r) = codeContext (pre ++ g :: r') ->
  path f = path g.
Proof.
  intros Hf Hg E. unfold codeContext in E.
  rewrite !map_app in E. simpl map in E.
  rewrite !join_app_cons in E. apply app_inv_head in E.
  rewrite !join_cons in E. unfold block in E.
  rewrite <- !app_assoc in E. apply app_inv_head in E.
  simpl in E. exact (split_at_first _ _ _ _ _ Hf Hg E).
Qed.

End AssemblerFacts.

(** C8 (as amended).  The assembled text is a function of the file list;
    and when the paths of the list are pairwise distinct and contain no
    line break, every reordering that changes the sequence changes the
    assembled text. *)
Theorem codeContext_deterministic_and_ordered
        (files files' : list Collector.SourceFile) :
  (forall l1 l2 : list Collector.SourceFile,
      l1 = l2 -> Assembler.codeContext l1 = Assembler.codeContext l2)
  /\ (NoDup (map Collector.path files) ->
      (forall f, In f files -> ~ In newline (Collector.path f)) ->
      Permutation files files' ->
      files <> files' ->
      Assembler.codeContext files <> Assembler.codeContext files').
Proof.
  split; [intros l1 l2 ->; reflexivity|].
  intros Hnd Hnl Hperm Hne E.
  destruct (first_difference files files' (Permutation_length Hperm) Hne)
    as (pre & f & r & g & r' & Hl & Hl' & Hfg).
  assert (Hf : In f files) by (rewrite Hl; apply in_elt).
  assert (Hg : In g files).
  { apply (Permutation_in g (Permutation_sym Hperm)).
    rewrite Hl'. apply in_elt. }
  assert (Hp : Collector.path f = Collector.path g).
  { rewrite Hl, Hl' in E.
    exact (codeContext_first_path pre r r' f g (Hnl f Hf) (Hnl g Hg) E). }
  apply Hfg. clear - Hnd Hf Hg Hp.
  induction files as [|h files IH]; [contradiction|].
  simpl in Hnd. inversion Hnd as [|? ? Hnotin Hnd']; subst.
  destruct Hf as [->|Hf], Hg as [->|Hg]; auto.
  - exfalso. apply Hnotin. rewrite Hp. apply in_map. exact Hg.
  - exfalso. apply Hnotin. rewrite <- Hp. apply in_map. exact Hf.
Qed.

Lemma codeContext_deterministic_and_ordered_witness :
  let a := {| Collector.path := lit "a.ts"; Collector.content := lit "x" |} in
  let b := {| Collector.path := lit "b.ts"; Collector.content := lit "y" |} in
  Assembler.codeContext [a; b] <> Assembler.codeContext [b; a].
Proof.
  intros a b.
  apply (proj2 (codeContext_deterministic_and_ordered [a; b] [b; a])).
  - repeat constructor; simpl; intuition discriminate.
  - intros f [<-|[<-|[]]]; simpl; intuition discriminate.
  - apply perm_swap.
  - discriminate.
Defined.

(** C8 as stated fails: two different files whose contents imitate the
    delimiters of the assembled text give the same text in both orders. *)
Lemma reordering_can_keep_the_text :
  let f1 := {| Collector.path := lit "a"; Collector.content := lit "x" |} in
  let f2 := {| Collector.path := lit "a";
               Collector.content :=
                 lit "x" ++ [newline] ++ fence ++ [newline; newline]
                   ++ lit "### a" ++ [newline] ++ fence ++ [newline]
                   ++ lit "x" |} in
  Permutation [f1; f2] [f2; f1]
  /\ [f1; f2] <> [f2; f1]
  /\ Assembler.codeContext [f1; f2] = Assembler.codeContext [f2; f1].
Proof.
  intros f1 f2. split; [apply perm_swap|]. split; [discriminate|].
  vm_compute. reflexivity.
Qed.

(** The same with two distinct paths, one of which contains line
    breaks. *)
Example reordering_with_line_breaks_in_a_path :
  let f1 := {| Collector.path := lit "a.ts"; Collector.content := lit "x" |} in
  let f2 := {| Collector.path :=
                 lit "a.ts" ++ [newline] ++ fence ++ [newline] ++ lit "x"
                   ++ [newline] ++ fence ++ [newline; newline]
                   ++ lit "### a.ts";
               Collector.content := lit "x" |} in
  Collector.path f1 <> Collector.path f2
  /\ Assembler.codeContext [f1; f2] = Assembler.codeContext [f2; f1].
Proof.
  intros f1 f2. split; [discriminate|]. vm_compute. reflexivity.
Qed.

(** ** QASession *)

Section QAFacts.
Import Cli QASession.

Variable api : nat -> api_result.
Variable model : jstr.

Lemma requests_app (tr tr' : list event) :
  requests (tr ++ tr') = (requests tr + requests tr')%nat.
Proof. unfold requests. rewrite filter_app, length_app. reflexivity. Qed.

Lemma requests_prompted (tr : list event) (p : prompt) (a : answer) :
  requests (tr ++ [Prompted p a]) = requests tr.
Proof. rewrite requests_app. cbv [requests filter is_request List.length]. lia. Qed.

Lemma any_casing_done (q : jstr) :
  any_casing (lit "done") q -> toLowerCase q = lit "done".
Proof.
  unfold any_casing. intros H.
  repeat match goal with
         | H : Forall2 _ _ _ |- _ => inversion H; clear H; subst
         end.
  repeat match goal with
         | H : _ \/ _ |- _ => destruct H; subst
         end; reflexivity.
Qed.

Lemma session_ending_ends (question : option jstr) :
  session_ending question -> ends_session question = true.
Proof.
  intros [->|[->|(q & -> & H)]]; try reflexivity.
  unfold ends_session. rewrite (any_casing_done q H), eqb_refl.
  apply orb_true_r.
Qed.

Lemma loop_ends (question : option jstr) (rest : list (option jstr))
      (st : qa_state) :
  ends_session question = true ->
  loop api model (question :: rest) st
  = (Ended, log (Prompted AskQuestion (text_answer question)) st).
Proof. intros H. cbn [loop]. rewrite H. reflexivity. Qed.

Lemma loop_turn (q : jstr) (rest : list (option jstr)) (st : qa_state) :
  ends_session (Some q) = false ->
  loop api model (Some q :: rest) st
  = loop api model rest
      (turn api model q (log (Prompted AskQuestion (Text q)) st)).
Proof.
  intros H. cbn [loop]. rewrite H, or_default_some. reflexivity.
Qed.

(** The loop on a script in two parts: the second part is read only if
    the first one has not ended the session. *)
Lemma loop_app (script1 script2 : list (option jstr)) :
  forall st,
    loop api model (script1 ++ script2) st
    = match loop api model script1 st with
      | (Ended, st') => (Ended, st')
      | (Awaiting, st') => loop api model script2 st'
      end.
Proof.
  induction script1 as [|question script1 IH]; intros st.
  - reflexivity.
  - cbn [app loop]. destruct (ends_session question); [reflexivity|].
    apply IH.
Qed.

(** The history after a turn: the question, and the answer when the
    request succeeded. *)
Lemma turn_messages (q : jstr) (st : qa_state) :
  messages (turn api model q st)
  = messages st
      ++ {| role_of := user; content := q |}
      :: match api (requests (trace st)) with
         | ApiOk text _ =>
             [{| role_of := assistant;
                 content :=
                   or_default text
                     (lit "Sorry, I couldn't generate a response.") |}]
         | ApiThrow _ => []
         end.
Proof.
  unfold turn. cbn [push log trace messages].
  destruct (api (requests (trace st))); cbn [push log trace messages].
  - rewrite <- app_assoc. reflexivity.
  - reflexivity.
Qed.


End QAFacts.

(** C5.  When the prompt of the loop returns a cancellation, an empty
    input or the word [done] in any letter case, the loop ends at once:
    no request is issued, the history is unchanged, and whatever the
    script holds after this answer is never read. *)
Theorem qa_ends_without_request
        (api : nat -> Cli.api_result) (model : jstr)
        (question : option jstr) (rest : list (option jstr))
        (st : QASession.qa_state) :
  QASession.session_ending question ->
  QASession.loop api model (question :: rest) st
  = (QASession.Ended,
     QASession.log
       (Cli.Prompted Cli.AskQuestion (Cli.text_answer question)) st)
  /\ Cli.requests
       (QASession.trace (snd (QASession.loop api model (question :: rest) st)))
     = Cli.requests (QASession.trace st)
  /\ QASession.messages
       (snd (QASession.loop api model (question :: rest) st))
     = QASession.messages st
  /\ (forall before,
         QASession.loop api model (before ++ question :: rest) st
         = QASession.loop api model (before ++ [question]) st).
Proof.
  intros H. apply session_ending_ends in H.
  rewrite (loop_ends api model question rest st H).
  repeat split.
  - cbn [snd QASession.log QASession.trace]. apply requests_prompted.
  - intros before. rewrite !loop_app.
    destruct (QASession.loop api model before st) as [[|] st'];
      [reflexivity|].
    rewrite !loop_ends by exact H. reflexivity.
Qed.

Lemma qa_ends_without_request_witness :
  QASession.loop (fun _ => Cli.ApiOk None None) (lit "gpt-4o-mini")
    [Some (lit "DoNe"); Some (lit "What are actions in Crow?")]
    (QASession.initial [])
  = (QASession.Ended,
     QASession.log
       (Cli.Prompted Cli.AskQuestion (Cli.Text (lit "DoNe")))
       (QASession.initial [])).
Proof.
  apply (qa_ends_without_request (fun _ => Cli.ApiOk None None)
           (lit "gpt-4o-mini") (Some (lit "DoNe"))
           [Some (lit "What are actions in Crow?")] (QASession.initial [])).
  right; right. exists (lit "DoNe"). split; [reflexivity|].
  repeat (apply Forall2_cons || apply Forall2_nil);
    solve [left; reflexivity | right; reflexivity].
Defined.

(** C6.  When the request of a turn fails, the failure is reported, the
    loop goes on with the rest of the script from a state whose history
    still ends with the question of the failed turn, and it waits at its
    prompt when the script holds nothing more. *)
Theorem qa_failed_turn_is_not_fatal
        (api : nat -> Cli.api_result) (model : jstr)
        (q : jstr) (script : list (option jstr))
        (st : QASession.qa_state) (error_message : option jstr) :
  QASession.ends_session (Some q) = false ->
  api (Cli.requests (QASession.trace st)) = Cli.ApiThrow error_message ->
  let history :=
    QASession.messages st
      ++ [{| Cli.role_of := Cli.user; Cli.content := q |}] in
  let st' :=
    {| QASession.messages := history;
       QASession.trace :=
         QASession.trace st
           ++ [Cli.Prompted Cli.AskQuestion (Cli.Text q);
               Cli.Request model history 300;
               Cli.SpinnerFail (lit "Failed to get response");
               Cli.LogError
                 (or_default error_message (lit "Unknown error"))] |} in
  QASession.loop api model (Some q :: script) st
  = QASession.loop api model script st'
  /\ QASession.loop api model [Some q] st = (QASession.Awaiting, st').
Proof.
  intros Hq Hapi history st'.
  assert (E : QASession.turn api model q
                (QASession.log (Cli.Prompted Cli.AskQuestion (Cli.Text q)) st)
              = st').
  { unfold QASession.turn.
    cbn [QASession.push QASession.log QASession.trace QASession.messages].
    rewrite requests_prompted, Hapi.
    cbn [QASession.push QASession.log QASession.trace QASession.messages].
    unfold st', history, QASession.log, QASession.push.
    cbn [QASession.trace QASession.messages].
    f_equal. rewrite <- !app_assoc. reflexivity. }
  split; rewrite (loop_turn api model q _ st Hq), E; reflexivity.
Qed.

Lemma qa_failed_turn_is_not_fatal_witness :
  QASession.loop (fun _ => Cli.ApiThrow (Some (lit "timeout")))
    (lit "gpt-4o-mini") [Some (lit "hi")] (QASession.initial [])
  = (QASession.Awaiting,
     {| QASession.messages :=
          [{| Cli.role_of := Cli.system;
              Cli.content := QASession.systemPrompt |};
           {| Cli.role_of := Cli.user; Cli.content := lit "hi" |}];
        QASession.trace :=
          [Cli.Prompted Cli.AskQuestion (Cli.Text (lit "hi"));
           Cli.Request (lit "gpt-4o-mini")
             [{| Cli.role_of := Cli.system;
                 Cli.content := QASession.systemPrompt |};
              {| Cli.role_of := Cli.user; Cli.content := lit "hi" |}] 300;
           Cli.SpinnerFail (lit "Failed to get response");
           Cli.LogError (lit "timeout")] |}).
Proof.
  apply (qa_failed_turn_is_not_fatal
           (fun _ => Cli.ApiThrow (Some (lit "timeout"))) (lit "gpt-4o-mini")
           (lit "hi") [] (QASession.initial []) (Some (lit "timeout")));
    reflexivity.
Defined.

Section CompletedTurns.
Import Cli QASession.

Variable api : nat -> api_result.
Variable model : jstr.



End CompletedTurns.



(** A session of two completed turns: the history has the system
    instruction and the two exchanges. *)
Example qa_two_turns :
  let api := fun n : nat =>
               Cli.ApiOk (Some (lit "answer")) (Some 12%N) in
  map Cli.role_of
    (QASession.messages
       (snd (QASession.runQA api (lit "gpt-4o-mini")
               [Some (lit "one"); Some (lit "two"); Some (lit "Done")] [])))
  = [Cli.system; Cli.user; Cli.assistant; Cli.user; Cli.assistant].
Proof. vm_compute. reflexivity. Qed.

(** ** The action: reasoning on computations *)

Section Triples.
Import Cli Program.
Local Open Scope prog_scope.

Context {A B : Type}.
Variables (P : list event -> Prop) (S : outcome -> list event -> Prop).

Lemma triple_ret (a : A) (Q : A -> list event -> Prop) :
  (forall tr, P tr -> Q a tr) -> triple P (ret a) Q S.
Proof. intros H tr Htr. exact (H tr Htr). Qed.

Lemma triple_stop (o : outcome) (Q : A -> list event -> Prop) :
  (forall tr, P tr -> S o tr) -> triple P (stop o) Q S.
Proof. intros H tr Htr. exact (H tr Htr). Qed.

Lemma triple_bind (m : M A) (k : A -> M B)
      (Q : A -> list event -> Prop) (R : B -> list event -> Prop) :
  triple P m Q S ->
  (forall a, triple (Q a) (k a) R S) ->
  triple P (x <- m ;; k x) R S.
Proof.
  intros Hm Hk tr Htr. unfold bind. specialize (Hm tr Htr).
  destruct (m tr) as [[a|o] tr']; [exact (Hk a tr' Hm)|exact Hm].
Qed.

Lemma triple_weaken (m : M A) (P' : list event -> Prop)
      (Q Q' : A -> list event -> Prop) :
  triple P' m Q' S ->
  (forall tr, P tr -> P' tr) ->
  (forall a tr, Q' a tr -> Q a tr) ->
  triple P m Q S.
Proof.
  intros Hm HP HQ tr Htr. specialize (Hm tr (HP tr Htr)).
  destruct (m tr) as [[a|o] tr']; [exact (HQ a tr' Hm)|exact Hm].
Qed.

End Triples.

Lemma triple_emit (P : list Cli.event -> Prop)
      (S : Cli.outcome -> list Cli.event -> Prop) (ev : Cli.event)
      (Q : unit -> list Cli.event -> Prop) :
  (forall tr, P tr -> Q tt (tr ++ [ev])) ->
  Program.triple P (Cli.emit ev) Q S.
Proof. intros H tr Htr. exact (H tr Htr). Qed.

(** ** Cancellation *)

Section Cancellation.
Import Collector Cli QASession Program.
Local Open Scope prog_scope.

Lemma quiet_snoc (tr : list event) (ev : event) :
  quiet (tr ++ [ev])
  = quiet tr && (negb (is_request ev) && negb (is_write ev)).
Proof.
  unfold quiet. rewrite forallb_app. simpl. rewrite andb_true_r.
  reflexivity.
Qed.

Lemma cancelled_snoc (tr : list event) (ev : event) :
  cancelled (tr ++ [ev]) = cancelled tr || is_param_cancel ev.
Proof.
  unfold cancelled. rewrite existsb_app. simpl. rewrite orb_false_r.
  reflexivity.
Qed.

Lemma cancelled_in (tr : list event) (p : prompt) :
  param_step p = true -> In (Prompted p Cancel) tr -> cancelled tr = true.
Proof.
  intros Hp Hin. apply existsb_exists.
  exists (Prompted p Cancel). split; [exact Hin|exact Hp].
Qed.

Ltac snoc :=
  unfold Resolving, Generating, CleanAbort in *;
  rewrite ?quiet_snoc, ?cancelled_snoc; simpl;
  rewrite ?andb_true_r, ?orb_false_r.

(** Symbolic execution of a step without loop. *)
Ltac exec :=
  unfold confirm, text; unfold triple, bind, emit, ret, exit, stop;
  intros tr [Hq Hc]; cbn beta iota;
  repeat match goal with
    | |- context [match ?x with _ => _ end] =>
        lazymatch x with
        | context [match _ with _ => _ end] => fail
        | _ => destruct x eqn:?; cbn beta iota
        end
    end;
  simpl; snoc; rewrite ?Hq, ?Hc; simpl; auto; try congruence.

Lemma checkApiKey_cancel (opts : options) (e : env) :
  triple Resolving (checkApiKey opts e) (fun _ => Resolving) CleanAbort.
Proof. unfold checkApiKey. exec. Qed.

Lemma awaitConsent_cancel (opts : options) (e : env) :
  triple Resolving (awaitConsent opts e) (fun _ => Resolving) CleanAbort.
Proof. unfold awaitConsent. exec. Qed.

Lemma text_validated_cancel (valid : jstr -> bool)
      (inputs : list (option jstr)) :
  triple Resolving (text_validated AskDirectory valid inputs)
    (fun a tr => quiet tr = true
                 /\ (cancelled tr = false \/ a = None))
    CleanAbort.
Proof.
  induction inputs as [|[v|] inputs IH]; cbn [text_validated].
  - exec.
  - destruct (valid v).
    + exec.
    + eapply triple_bind with (Q := fun _ => Resolving);
        [|intros ?; exact IH].
      apply triple_emit. intros tr [Hq Hc]. snoc. rewrite Hq, Hc. auto.
  - exec.
Qed.

Lemma awaitDirectory_cancel (directory : option jstr) (opts : options)
      (e : env) :
  triple Resolving (awaitDirectory directory opts e)
    (fun _ => Resolving) CleanAbort.
Proof.
  unfold awaitDirectory.
  eapply triple_bind with (Q := fun _ => Resolving).
  { exec. }
  intros targetDir.
  eapply triple_bind with (Q := fun _ => Resolving).
  2: { intros ?. apply triple_ret. auto. }
  destruct (negb (truthy targetDir) && negb (yes opts)).
  2: { apply triple_ret. auto. }
  eapply triple_bind; [apply text_validated_cancel|].
  intros [v|]; intros tr [Hq Hc]; simpl; snoc.
  - destruct Hc; [auto|discriminate].
  - auto.
Qed.

Lemma awaitOutputPath_cancel (opts : options) (e : env) :
  triple Resolving (awaitOutputPath opts e) (fun _ => Resolving) CleanAbort.
Proof. unfold awaitOutputPath. exec. Qed.

Lemma awaitBaseUrl_cancel (opts : options) (e : env) :
  triple Resolving (awaitBaseUrl opts e) (fun _ => Resolving) CleanAbort.
Proof. unfold awaitBaseUrl. exec. Qed.

Lemma loop_cancelled (api : nat -> api_result) (model : jstr)
      (script : list (option jstr)) :
  forall st,
    cancelled (trace (snd (loop api model script st)))
    = cancelled (trace st).
Proof.
  induction script as [|question script IH]; intros st; cbn [loop].
  - reflexivity.
  - destruct (ends_session question).
    + cbn [snd log trace]. rewrite cancelled_snoc.
      destruct question; apply orb_false_r.
    + rewrite IH. unfold turn.
      destruct (api _), question;
        cbn [push log trace]; rewrite ?cancelled_snoc; simpl;
        rewrite ?orb_false_r; reflexivity.
Qed.

Lemma runQA_step_cancel (e : env) (model : jstr) :
  triple Generating (runQA_step e model) (fun _ => Generating) CleanAbort.
Proof.
  intros tr Hc. unfold runQA_step, runQA.
  pose proof (loop_cancelled (api e) model (questions (usr e))
                (initial tr)) as H.
  destruct (loop (api e) model (questions (usr e)) (initial tr))
    as [[|] st]; cbn [snd initial trace] in H;
    unfold Generating, CleanAbort in *; congruence.
Qed.

Ltac exec_gen :=
  unfold confirm, text; unfold triple, bind, emit, ret, exit, stop;
  intros tr Hc; cbn beta iota;
  repeat match goal with
    | |- context [match ?x with _ => _ end] =>
        lazymatch x with
        | context [match _ with _ => _ end] => fail
        | _ => destruct x eqn:?; cbn beta iota
        end
    end;
  simpl; snoc; rewrite ?Hc; simpl; auto; try congruence.

Lemma generationFailed_cancel (error_message : option jstr) :
  triple Generating (@generationFailed unit error_message)
    (fun _ => Generating) CleanAbort.
Proof. unfold generationFailed. exec_gen. Qed.

Lemma generate_cancel (e : env) (opts : options)
      (files : list SourceFile) (outputFile baseUrl : jstr) :
  triple Generating (generate e opts files outputFile baseUrl)
    (fun _ => Generating) CleanAbort.
Proof.
  unfold generate.
  eapply triple_bind with (Q := fun _ => Generating).
  { unfold create. intros tr Hc. snoc. rewrite Hc. reflexivity. }
  intros [content tokens|error_message];
    [|apply generationFailed_cancel].
  destruct (writable e outputFile); [|apply generationFailed_cancel].
  eapply triple_bind with (Q := fun _ => Generating).
  { apply triple_emit. intros tr Hc. snoc. rewrite Hc. reflexivity. }
  intros ?. destruct (negb (yes opts)); [|apply triple_ret; auto].
  eapply triple_bind with (Q := fun _ => Generating).
  { exec_gen. destruct (want_help (usr e)); reflexivity. }
  intros [[|]|]; [apply runQA_step_cancel| |]; apply triple_ret; auto.
Qed.

Lemma action_cancel (directory : option jstr) (opts : options) (e : env) :
  triple Resolving (action directory opts e)
    (fun _ => Generating) CleanAbort.
Proof.
  unfold action.
  eapply triple_bind; [apply checkApiKey_cancel|]. intros ?.
  eapply triple_bind; [apply awaitConsent_cancel|]. intros ?.
  eapply triple_bind; [apply awaitDirectory_cancel|]. intros targetDir.
  destruct (fs e targetDir) as [stat|]; [|exec].
  eapply triple_bind with (Q := fun _ => Resolving).
  { destruct stat; exec. }
  intros ?.
  eapply triple_bind; [apply awaitOutputPath_cancel|]. intros outputFile.
  eapply triple_bind; [apply awaitBaseUrl_cancel|]. intros baseUrl.
  cbv zeta. destruct (scan stat targetDir); [exec|].
  eapply triple_weaken; [apply generate_cancel| |auto].
  intros tr [_ Hc]. exact Hc.
Qed.

End Cancellation.

(** C4.  When the user cancels at one of the four steps that resolve the
    parameters (consent, directory, output path, base URL), the process
    exits with status 0, and the run has issued no request and written
    no file. *)
Theorem cancellation_is_a_clean_exit
        (directory : option jstr) (opts : Cli.options) (e : Cli.env)
        (p : Cli.prompt) :
  Cli.param_step p = true ->
  In (Cli.Prompted p Cli.Cancel) (snd (Program.run directory opts e)) ->
  fst (Program.run directory opts e) = Cli.Exit 0
  /\ Cli.quiet (snd (Program.run directory opts e)) = true.
Proof.
  intros Hp Hin. unfold Program.run in *.
  pose proof (action_cancel directory opts e [] (conj eq_refl eq_refl)) as H.
  destruct (Program.action directory opts e []) as [[a|o] tr];
    cbn [fst snd] in *; pose proof (cancelled_in tr p Hp Hin) as Hc.
  - unfold Program.Generating in H. congruence.
  - exact (H Hc).
Qed.

Lemma cancellation_is_a_clean_exit_witness :
  fst (Program.run None Scenario.interactive
         (Scenario.machine Scenario.cancels_at_url)) = Cli.Exit 0
  /\ Cli.quiet (snd (Program.run None Scenario.interactive
                       (Scenario.machine Scenario.cancels_at_url))) = true.
Proof.
  apply (cancellation_is_a_clean_exit None Scenario.interactive
           (Scenario.machine Scenario.cancels_at_url) Cli.AskBaseUrl).
  - reflexivity.
  - vm_compute. tauto.
Defined.

(** The events of this run: the prompts, and nothing else. *)
Example cancel_at_base_url_run :
  Program.run None Scenario.interactive
    (Scenario.machine Scenario.cancels_at_url)
  = (Cli.Exit 0,
     [Cli.Prompted Cli.AskConsent (Cli.Bool true);
      Cli.Rejected Cli.AskDirectory (lit "./nowhere");
      Cli.Prompted Cli.AskDirectory (Cli.Text (lit "./api"));
      Cli.Prompted Cli.AskOutput (Cli.Text (lit "out.yaml"));
      Cli.Prompted Cli.AskBaseUrl Cli.Cancel]).
Proof. vm_compute. reflexivity. Qed.

(** ** The [--yes] flag *)

(** C9.  With [--yes], no prompt is shown during the run (the session of
    questions is neither offered nor entered), at most one completion
    request is issued, and when the output file is written the write is
    the last event of the run, after the only request, and the action
    returns. *)
Theorem yes_never_enters_qa
        (directory : option jstr) (opts : Cli.options) (e : Cli.env) :
  Cli.yes opts = true ->
  forallb (fun ev => negb (Cli.is_prompt ev))
    (snd (Program.run directory opts e)) = true
  /\ (Cli.requests (snd (Program.run directory opts e)) <= 1)%nat
  /\ (forall file data,
         In (Cli.WriteFile file data) (snd (Program.run directory opts e)) ->
         fst (Program.run directory opts e) = Cli.Returned
         /\ exists before,
             snd (Program.run directory opts e)
             = before ++ [Cli.WriteFile file data]
             /\ Cli.requests before = 1%nat).
Proof.
  intros Hyes.
  unfold Program.run, Program.action, Program.checkApiKey,
    Program.awaitConsent, Program.awaitDirectory, Program.awaitOutputPath,
    Program.awaitBaseUrl, Program.generate, Program.generationFailed,
    Program.create.
  rewrite Hyes. cbn [negb].
  unfold Cli.bind, Cli.emit, Cli.ret, Cli.exit, Cli.stop. cbn beta iota.
  repeat match goal with
    | |- context [match ?x with _ => _ end] =>
        lazymatch x with
        | context [match _ with _ => _ end] => fail
        | _ => destruct x eqn:?; cbn beta iota
        end
    end;
    try solve [exfalso;
               match goal with
               | H : _ && false = true |- _ =>
                   rewrite andb_false_r in H; discriminate H
               end];
    cbn [fst snd app];
    (split; [reflexivity|split; [cbv [Cli.requests filter Cli.is_request List.length]; lia|]]);
    intros file data Hin; cbn [In] in Hin;
    repeat match goal with
      | H : _ \/ _ |- _ => destruct H
      | H : False |- _ => destruct H
      | H : _ = Cli.WriteFile _ _ |- _ =>
          first [discriminate H | injection H as <- <-]
      end;
    (split; [reflexivity|]);
    first [eexists [_]; split; reflexivity
          |eexists [_; _]; split; reflexivity].
Qed.

(** The scenario of the specification: [--yes --output out.yaml] on the
    directory [./api] with the stubbed response. *)
Example yes_scenario :
  exists messages,
    Program.run (Some (lit "./api")) Scenario.yes_output
      (Scenario.machine Scenario.silent)
    = (Cli.Returned,
       [Cli.Request (lit "gpt-4o-mini") messages 16000;
        Cli.WriteFile (lit "out.yaml") (lit "openapi: 3.0.3")]).
Proof. eexists. vm_compute. reflexivity. Qed.

Lemma yes_never_enters_qa_witness :
  forallb (fun ev => negb (Cli.is_prompt ev))
    (snd (Program.run (Some (lit "./api")) Scenario.yes_output
            (Scenario.machine Scenario.silent))) = true
  /\ (Cli.requests
        (snd (Program.run (Some (lit "./api")) Scenario.yes_output
                (Scenario.machine Scenario.silent))) <= 1)%nat.
Proof.
  destruct (yes_never_enters_qa (Some (lit "./api")) Scenario.yes_output
              (Scenario.machine Scenario.silent) eq_refl) as (H1 & H2 & _).
  split; [exact H1|exact H2].
Defined.

(** ** A file as target *)

(** C3.  When the target is a file, whatever its size and its name, the
    scan is the one-element sequence of this file, with the target as
    path and the whole text of the file as content; and a run with
    [--yes] on such a target sends the context assembled from this single
    entry. *)
Theorem single_file_bypasses_collection :
  (forall (size : N) (text targetDir : jstr),
      Program.scan (Collector.File size text) targetDir
      = [{| Collector.path := targetDir; Collector.content := text |}])
  /\ (forall (opts : Cli.options) (e : Cli.env) (d : jstr)
             (size : N) (text : jstr),
         Cli.yes opts = true ->
         truthy (or_else (Cli.apiKey opts) (Cli.OPENAI_API_KEY e)) = true ->
         truthy (Some d) = true ->
         Cli.fs e d = Some (Collector.File size text) ->
         exists warning rest,
           snd (Program.run (Some d) opts e)
           = Cli.Warned warning
             :: Cli.Request (Cli.model opts)
                  [{| Cli.role_of := Cli.system;
                      Cli.content := Program.generationPrompt |};
                   {| Cli.role_of := Cli.user;
                      Cli.content :=
                        lit "Generate an OpenAPI spec for this backend code. Base URL: "
                          ++ or_default (Cli.baseUrl opts)
                               (lit "http://localhost:3000")
                          ++ [newline; newline]
                          ++ Assembler.codeContext
                               [{| Collector.path := d;
                                   Collector.content := text |}] |}]
                  16000
             :: rest).
Proof.
  split; [reflexivity|].
  intros opts e d size text Hyes Hkey Hd Hfs.
  assert (Ed : or_default (Some d) (lit ".") = d)
    by (destruct d; [discriminate|reflexivity]).
  unfold Program.run, Program.action, Program.checkApiKey,
    Program.awaitConsent, Program.awaitDirectory, Program.awaitOutputPath,
    Program.awaitBaseUrl, Program.generate, Program.generationFailed,
    Program.create.
  rewrite Hyes, Hkey, Hd. cbn [negb]. rewrite !andb_false_r.
  unfold Cli.bind, Cli.emit, Cli.ret, Cli.exit, Cli.stop. cbn beta iota.
  rewrite ?andb_false_r. cbn beta iota.
  rewrite Ed, Hfs. cbn beta iota zeta. cbn [Program.scan app].
  rewrite ?andb_false_r. cbn beta iota.
  repeat match goal with
    | |- context [match ?x with _ => _ end] =>
        lazymatch x with
        | context [match _ with _ => _ end] => fail
        | _ => destruct x eqn:?; cbn beta iota
        end
    end;
    cbn [snd app]; do 2 eexists; reflexivity.
Qed.

(** A file of 250,000 bytes whose name has no supported extension. *)
Lemma single_file_bypasses_collection_witness :
  exists warning rest,
    snd (Program.run (Some (lit "notes.txt")) Scenario.yes_output
           (Scenario.machine Scenario.silent))
    = Cli.Warned warning
      :: Cli.Request (lit "gpt-4o-mini")
           [{| Cli.role_of := Cli.system;
               Cli.content := Program.generationPrompt |};
            {| Cli.role_of := Cli.user;
               Cli.content :=
                 lit "Generate an OpenAPI spec for this backend code. Base URL: "
                   ++ lit "http://localhost:3000"
                   ++ [newline; newline]
                   ++ Assembler.codeContext
                        [{| Collector.path := lit "notes.txt";
                            Collector.content :=
                              lit "GET /users lists the users" |}] |}]
           16000
      :: rest.
Proof.
  apply (proj2 single_file_bypasses_collection Scenario.yes_output
           (Scenario.machine Scenario.silent) (lit "notes.txt") 250000%N
           (lit "GET /users lists the users"));
    reflexivity.
Defined.

(** ** What is written *)

Section WrittenData.
Import Collector Cli QASession Program.
Local Open Scope prog_scope.

Lemma Written_snoc (tr : list event) (ev : event) :
  Written tr -> written_ok ev -> Written (tr ++ [ev]).
Proof.
  intros Htr Hev. apply Forall_app. split; [exact Htr|].
  constructor; [exact Hev|constructor].
Qed.

Ltac exec_written :=
  unfold confirm, text; unfold triple, bind, emit, ret, exit, stop;
  intros tr Hw; cbn beta iota;
  repeat match goal with
    | |- context [match ?x with _ => _ end] =>
        lazymatch x with
        | context [match _ with _ => _ end] => fail
        | _ => destruct x eqn:?; cbn beta iota
        end
    end;
  repeat (apply Written_snoc; [|exact I]); exact Hw.

Lemma text_validated_written (p : prompt) (valid : jstr -> bool)
      (inputs : list (option jstr)) :
  triple Written (text_validated p valid inputs)
    (fun _ => Written) (fun _ => Written).
Proof.
  induction inputs as [|[v|] inputs IH]; cbn [text_validated].
  - exec_written.
  - destruct (valid v).
    + exec_written.
    + eapply triple_bind with (Q := fun _ => Written);
        [|intros ?; exact IH].
      exec_written.
  - exec_written.
Qed.

Lemma loop_written (api : nat -> api_result) (model : jstr)
      (script : list (option jstr)) :
  forall st,
    Written (trace st) -> Written (trace (snd (loop api model script st))).
Proof.
  induction script as [|question script IH]; intros st Hw; cbn [loop].
  - exact Hw.
  - destruct (ends_session question).
    + apply Written_snoc; [exact Hw|exact I].
    + apply IH. unfold turn. destruct (api _); cbn [push log trace];
        repeat (apply Written_snoc; [|exact I]); exact Hw.
Qed.

Lemma runQA_step_written (e : env) (model : jstr) :
  triple Written (runQA_step e model) (fun _ => Written) (fun _ => Written).
Proof.
  intros tr Hw. unfold runQA_step, runQA.
  pose proof (loop_written (api e) model (questions (usr e)) (initial tr) Hw)
    as H.
  destruct (loop (api e) model (questions (usr e)) (initial tr))
    as [[|] st]; exact H.
Qed.

Lemma generationFailed_written (error_message : option jstr) :
  triple Written (@generationFailed unit error_message)
    (fun _ => Written) (fun _ => Written).
Proof. unfold generationFailed. exec_written. Qed.

Lemma generate_written (e : env) (opts : options)
      (files : list SourceFile) (outputFile baseUrl : jstr) :
  triple Written (generate e opts files outputFile baseUrl)
    (fun _ => Written) (fun _ => Written).
Proof.
  unfold generate.
  eapply triple_bind with (Q := fun _ => Written).
  { unfold create. intros tr Hw. apply Written_snoc; [exact Hw|exact I]. }
  intros [content tokens|error_message];
    [|apply generationFailed_written].
  destruct (writable e outputFile); [|apply generationFailed_written].
  eapply triple_bind with (Q := fun _ => Written).
  { apply triple_emit. intros tr Hw.
    apply Written_snoc; [exact Hw|]. exists content. reflexivity. }
  intros ?. destruct (negb (yes opts)); [|apply triple_ret; auto].
  eapply triple_bind with (Q := fun _ => Written).
  { exec_written. }
  intros [[|]|]; [apply runQA_step_written| |]; apply triple_ret; auto.
Qed.

Lemma awaitDirectory_written (directory : option jstr) (opts : options)
      (e : env) :
  triple Written (awaitDirectory directory opts e)
    (fun _ => Written) (fun _ => Written).
Proof.
  unfold awaitDirectory.
  eapply triple_bind with (Q := fun _ => Written).
  { exec_written. }
  intros targetDir.
  eapply triple_bind with (Q := fun _ => Written).
  2: { intros ?. apply triple_ret. auto. }
  destruct (negb (truthy targetDir) && negb (yes opts)).
  2: { apply triple_ret. auto. }
  eapply triple_bind; [apply text_validated_written|].
  intros [v|]; exec_written.
Qed.

Lemma action_written (directory : option jstr) (opts : options) (e : env) :
  triple Written (action directory opts e)
    (fun _ => Written) (fun _ => Written).
Proof.
  unfold action.
  eapply triple_bind with (Q := fun _ => Written).
  { unfold checkApiKey. exec_written. }
  intros ?. eapply triple_bind with (Q := fun _ => Written).
  { unfold awaitConsent. exec_written. }
  intros ?. eapply triple_bind; [apply awaitDirectory_written|].
  intros targetDir.
  destruct (fs e targetDir) as [stat|]; [|exec_written].
  eapply triple_bind with (Q := fun _ => Written).
  { destruct stat; exec_written. }
  intros ?. eapply triple_bind with (Q := fun _ => Written).
  { unfold awaitOutputPath. exec_written. }
  intros outputFile. eapply triple_bind with (Q := fun _ => Written).
  { unfold awaitBaseUrl. exec_written. }
  intros baseUrl.
  cbv zeta. destruct (scan stat targetDir); [exec_written|].
  apply generate_written.
Qed.

(** Every write of every run holds the normalised content of a
    response. *)
Lemma written_data_is_normalized (directory : option jstr) (opts : options)
      (e : env) (file data : jstr) :
  In (WriteFile file data) (snd (run directory opts e)) ->
  exists text, data = normalize text.
Proof.
  intros Hin. unfold run in Hin.
  pose proof (action_written directory opts e [] (Forall_nil _)) as H.
  destruct (action directory opts e []) as [[a|o] tr]; cbn [snd] in Hin;
    unfold Written in H; rewrite Forall_forall in H;
    exact (H _ Hin).
Qed.

End WrittenData.

(** ** Further scenarios *)

Example extname_examples :
  Collector.extname (lit "users.py") = lit ".py"
  /\ Collector.extname (lit "a.test.ts") = lit ".ts"
  /\ Collector.extname (lit "Makefile") = []
  /\ Collector.extname (lit "notes.") = lit "."
  /\ Collector.extname (lit ".bashrc") = []
  /\ Collector.extname (lit "..") = [].
Proof. vm_compute. repeat split; reflexivity. Qed.

(** A cancellation at the consent, and a declined consent. *)
Example cancel_at_consent_run :
  Program.run (Some (lit "./api")) Scenario.interactive
    (Scenario.machine Scenario.silent)
  = (Cli.Exit 0, [Cli.Prompted Cli.AskConsent Cli.Cancel]).
Proof. vm_compute. reflexivity. Qed.

(** A cancellation at the directory prompt, after a submission that was
    refused. *)
Example cancel_at_directory_run :
  Program.run None Scenario.interactive
    (Scenario.machine
       {| Cli.consent := Some true;
          Cli.dir_inputs := [Some (lit "./nowhere"); None];
          Cli.output_input := None; Cli.url_input := None;
          Cli.want_help := None; Cli.questions := [] |})
  = (Cli.Exit 0,
     [Cli.Prompted Cli.AskConsent (Cli.Bool true);
      Cli.Rejected Cli.AskDirectory (lit "./nowhere");
      Cli.Prompted Cli.AskDirectory Cli.Cancel]).
Proof. vm_compute. reflexivity. Qed.

(** A cancellation at the output prompt. *)
Example cancel_at_output_run :
  Program.run (Some (lit "./api")) Scenario.interactive
    (Scenario.machine
       {| Cli.consent := Some true; Cli.dir_inputs := [];
          Cli.output_input := None; Cli.url_input := None;
          Cli.want_help := None; Cli.questions := [] |})
  = (Cli.Exit 0,
     [Cli.Prompted Cli.AskConsent (Cli.Bool true);
      Cli.Prompted Cli.AskOutput Cli.Cancel]).
Proof. vm_compute. reflexivity. Qed.

(** An interactive run with one question answered and the word of the
    end: two requests in all, and the action returns. *)
Example interactive_run_with_question :
  let u := {| Cli.consent := Some true; Cli.dir_inputs := [];
              Cli.output_input := Some (lit "out.yaml");
              Cli.url_input := Some (lit "http://localhost:3000");
              Cli.want_help := Some true;
              Cli.questions := [Some (lit "What are actions?");
                                Some (lit "DONE");
                                Some (lit "never read")] |} in
  fst (Program.run (Some (lit "./api")) Scenario.interactive
         (Scenario.machine u)) = Cli.Returned
  /\ Cli.requests
       (snd (Program.run (Some (lit "./api")) Scenario.interactive
               (Scenario.machine u))) = 2%nat.
Proof. vm_compute. split; reflexivity. Qed.

(* ------------------------------------------------------------------ *)
(** * Part III: further properties of the code *)
(* ------------------------------------------------------------------ *)

(** ** FileCollector: what is collected *)

Section CollectorCompleteness.
Import Collector.

Lemma visit_complete (n : node) (names : list jstr) (size : N)
      (text : jstr) :
  resides n names (File size text) ->
  forall dir entry,
    Forall (fun x => skipped x = false) (entry :: names) ->
    includes EXTENSIONS (extname (last (entry :: names) [])) = true ->
    (size < 100000)%N ->
    In {| path := join [slash] (dir ++ entry :: names);
          Collector.content := text |}
       (visit dir entry n).
Proof.
  intros Hr. remember (File size text) as leaf eqn:El.
  induction Hr as [n|entries name child names n Hin Hr IH];
    intros dir entry Hu He Hlt; subst.
  - cbn [visit]. inversion Hu as [|? ? Hs _]; subst. rewrite Hs.
    cbn [last] in He. rewrite He.
    destruct (N.ltb_spec size 100000) as [_|Hge]; [|lia].
    left. reflexivity.
  - cbn [visit]. inversion Hu as [|? ? Hs Hu']; subst. rewrite Hs.
    apply in_flat_map. exists (name, child). split; [exact Hin|].
    cbn [fst snd].
    replace (dir ++ entry :: name :: names)
      with ((dir ++ [entry]) ++ name :: names)
      by (rewrite <- app_assoc; reflexivity).
    apply IH; auto.
Qed.

End CollectorCompleteness.

(** X1.  Nothing that qualifies is left out: a file that is found from
    the scanned directory along names none of which is hidden or ignored,
    whose name has a supported extension and whose size is below 100,000
    bytes, is returned by [collectFiles], with the names joined by the
    separator as path and its text as content. *)
Theorem collectFiles_complete
        (entries : list (jstr * Collector.node)) (names : list jstr)
        (size : N) (text : jstr) :
  Collector.resides (Collector.Dir entries) names
    (Collector.File size text) ->
  Forall (fun x => Collector.skipped x = false) names ->
  includes Collector.EXTENSIONS (Collector.extname (last names [])) = true ->
  (size < 100000)%N ->
  In {| Collector.path := join [Collector.slash] names;
        Collector.content := text |}
     (Collector.collectFiles [] entries).
Proof.
  intros Hr Hu He Hlt.
  inversion Hr as [|entries' name child names' n Hin Hr']; subst.
  unfold Collector.collectFiles. apply in_flat_map.
  exists (name, child). split; [exact Hin|].
  exact (visit_complete child names' size text Hr' [] name Hu He Hlt).
Qed.

Lemma collectFiles_complete_witness :
  In {| Collector.path := lit "routes/users.ts";
        Collector.content := lit "export {}" |}
     (Collector.collectFiles []
        [(lit "dist", Collector.Dir []);
         (lit "routes",
           Collector.Dir
             [(lit "users.ts", Collector.File 9 (lit "export {}"))])]).
Proof.
  apply (collectFiles_complete
           [(lit "dist", Collector.Dir []);
            (lit "routes",
              Collector.Dir
                [(lit "users.ts", Collector.File 9 (lit "export {}"))])]
           [lit "routes"; lit "users.ts"] 9%N (lit "export {}")).
  - eapply Collector.resides_step; [right; left; reflexivity|].
    eapply Collector.resides_step; [left; reflexivity|].
    apply Collector.resides_here.
  - repeat constructor.
  - reflexivity.
  - reflexivity.
Defined.

(** ** FileCollector: the paths of the result *)

Section CollectorPaths.
Import Collector Tree.

(** A text is cut in one way where its first separator is, or at its
    end. *)
Lemma cut_at_separator (a b r1 r2 : jstr) :
  ~ In slash a -> ~ In slash b ->
  (r1 = [] \/ exists t, r1 = slash :: t) ->
  (r2 = [] \/ exists t, r2 = slash :: t) ->
  a ++ r1 = b ++ r2 -> a = b.
Proof.
  revert b. induction a as [|c a IH]; intros [|d b] Ha Hb H1 H2 E.
  - reflexivity.
  - exfalso. simpl in E. destruct H1 as [->|[t ->]]; [discriminate|].
    injection E as E _. subst d. apply Hb. left. reflexivity.
  - exfalso. simpl in E. destruct H2 as [->|[t ->]]; [discriminate|].
    injection E as E _. subst c. apply Ha. left. reflexivity.
  - simpl in E. injection E as -> E. f_equal.
    apply IH with (b := b); auto; intros Hin; [apply Ha|apply Hb];
      right; exact Hin.
Qed.

Lemma join_rest_shape (l : list jstr) :
  let r := List.concat (map (fun y => [slash] ++ y) l) in
  r = [] \/ exists t, r = slash :: t.
Proof. destruct l; [left; reflexivity|right; eexists; reflexivity]. Qed.

(** Two joined paths with the same beginning and the same text have the
    same next name. *)
Lemma join_next_name (dir : list jstr) (a b : jstr) (l1 l2 : list jstr) :
  ~ In slash a -> ~ In slash b ->
  join [slash] (dir ++ a :: l1) = join [slash] (dir ++ b :: l2) -> a = b.
Proof.
  intros Ha Hb E. rewrite !join_app_cons in E. apply app_inv_head in E.
  rewrite !join_cons in E.
  exact (cut_at_separator a b _ _ Ha Hb (join_rest_shape l1)
           (join_rest_shape l2) E).
Qed.

Lemma flat_visit_distinct (dir : list jstr) (entries : list (jstr * node)) :
  NoDup (map fst entries) ->
  (forall name child, In (name, child) entries -> ~ In slash name) ->
  (forall e, In e entries ->
             NoDup (map path (visit dir (fst e) (snd e)))) ->
  NoDup (map path (flat_map (fun e => visit dir (fst e) (snd e)) entries)).
Proof.
  induction entries as [|[name child] entries IH]; intros Hnd Hsl Hin.
  - constructor.
  - cbn [flat_map fst snd]. rewrite map_app.
    cbn [map fst] in Hnd. inversion Hnd as [|? ? Hfresh Hnd']; subst.
    apply NoDup_app.
    + exact (Hin (name, child) (or_introl eq_refl)).
    + apply IH; [exact Hnd'| |].
      * intros n c H. apply (Hsl n c). right. exact H.
      * intros e H. apply Hin. right. exact H.
    + intros p H1 H2.
      apply in_map_iff in H1. destruct H1 as (f1 & E1 & H1).
      apply in_map_iff in H2. destruct H2 as (f2 & E2 & H2).
      apply in_flat_map in H2. destruct H2 as ([name2 child2] & Hin2 & H2).
      cbn [fst snd] in H2.
      apply visit_sound in H1. destruct H1 as (names1 & ? & P1 & _).
      apply visit_sound in H2. destruct H2 as (names2 & ? & P2 & _).
      apply Hfresh.
      assert (name = name2) as ->.
      { apply (join_next_name dir name name2 names1 names2).
        - apply (Hsl name child). left. reflexivity.
        - apply (Hsl name2 child2). right. exact Hin2.
        - congruence. }
      apply in_map_iff. exists (name2, child2). split; [reflexivity|exact Hin2].
Qed.

Lemma visit_distinct (n : node) :
  well_named n ->
  forall dir entry, NoDup (map path (visit dir entry n)).
Proof.
  induction n as [size text|entries IH] using node_tree_ind;
    intros Hw dir entry; cbn [visit]; destruct (skipped entry);
    try constructor.
  - destruct (_ && _); repeat constructor. intros [].
  - inversion Hw as [|? Hnd Hsl Hch]; subst.
    apply flat_visit_distinct; [exact Hnd|exact Hsl|].
    intros [name child] Hin. rewrite Forall_forall in IH.
    apply (IH _ Hin). exact (Hch name child Hin).
Qed.

End CollectorPaths.

(** X2.  In a directory where, at every level, the names of the entries
    are pairwise distinct and hold no separator, the paths of the files
    that [collectFiles] returns are pairwise distinct. *)
Theorem collected_paths_are_distinct
        (entries : list (jstr * Collector.node)) :
  Tree.well_named (Collector.Dir entries) ->
  NoDup (map Collector.path (Collector.collectFiles [] entries)).
Proof.
  intros Hw. inversion Hw as [|? Hnd Hsl Hch]; subst.
  unfold Collector.collectFiles.
  apply flat_visit_distinct; [exact Hnd|exact Hsl|].
  intros [name child] Hin. apply visit_distinct.
  exact (Hch name child Hin).
Qed.

Lemma collected_paths_are_distinct_witness :
  NoDup (map Collector.path
           (Collector.collectFiles []
              [(lit "a.ts", Collector.File 1 (lit "x"));
               (lit "lib",
                 Collector.Dir [(lit "a.ts", Collector.File 1 (lit "y"))])])).
Proof.
  apply (collected_paths_are_distinct
           [(lit "a.ts", Collector.File 1 (lit "x"));
            (lit "lib",
              Collector.Dir [(lit "a.ts", Collector.File 1 (lit "y"))])]).
  apply Tree.well_named_dir.
  - repeat constructor; simpl; intuition discriminate.
  - intros name child [E|[E|[]]]; injection E as <- _;
      vm_compute; intuition discriminate.
  - intros name child [E|[E|[]]]; injection E as _ <-.
    + constructor.
    + apply Tree.well_named_dir.
      * repeat constructor. intros [].
      * intros n c [E|[]]. injection E as <- _.
        vm_compute; intuition discriminate.
      * intros n c [E|[]]. injection E as _ <-. constructor.
Defined.

(** ** ContextAssembler: composition *)

Section AssemblerComposition.
Import Collector Assembler.

Lemma join_suffixed (sep : jstr) (l : list jstr) :
  l <> [] ->
  List.concat (map (fun y => y ++ sep) l) = join sep l ++ sep.
Proof.
  induction l as [|x l IH]; [congruence|]. intros _.
  destruct l as [|y l].
  - simpl. rewrite app_nil_r. reflexivity.
  - rewrite join_next by discriminate.
    cbn [map List.concat] in *. rewrite IH by discriminate.
    rewrite <- !app_assoc. reflexivity.
Qed.

Lemma join_app (sep : jstr) (l1 l2 : list jstr) :
  l1 <> [] -> l2 <> [] ->
  join sep (l1 ++ l2) = join sep l1 ++ sep ++ join sep l2.
Proof.
  intros H1 H2. destruct l2 as [|x l2]; [congruence|].
  rewrite join_app_cons, join_suffixed by exact H1.
  rewrite <- app_assoc. reflexivity.
Qed.

End AssemblerComposition.

(** X3.  The context of a list in two non-empty parts is the context of
    the first part, a blank line, and the context of the second part; the
    context of one file is its block and the context of no file is
    empty. *)
Theorem codeContext_app (files1 files2 : list Collector.SourceFile) :
  (files1 <> [] -> files2 <> [] ->
   Assembler.codeContext (files1 ++ files2)
   = Assembler.codeContext files1 ++ [newline; newline]
       ++ Assembler.codeContext files2)
  /\ (forall f, Assembler.codeContext [f] = Assembler.block f)
  /\ Assembler.codeContext [] = [].
Proof.
  split; [|split; reflexivity].
  intros H1 H2. unfold Assembler.codeContext. rewrite map_app.
  apply join_app; intros E; apply map_eq_nil in E; contradiction.
Qed.

Lemma codeContext_app_witness :
  let a := {| Collector.path := lit "a.ts"; Collector.content := lit "x" |} in
  let b := {| Collector.path := lit "b.ts"; Collector.content := lit "y" |} in
  Assembler.codeContext ([a] ++ [b])
  = Assembler.codeContext [a] ++ [newline; newline]
      ++ Assembler.codeContext [b].
Proof.
  intros a b. apply (proj1 (codeContext_app [a] [b])); discriminate.
Defined.

(** X4.  Nothing of a file is lost in the context: for every file of the
    list, its block (the header with its path, then its whole content
    between two fence lines) occurs in the assembled text, after the
    blocks of the files before it and before those of the files after
    it. *)
Theorem codeContext_holds_every_file
        (before after : list Collector.SourceFile)
        (f : Collector.SourceFile) :
  exists a b,
    Assembler.codeContext (before ++ f :: after)
    = a ++ Assembler.block f ++ b
    /\ (before = [] -> a = [])
    /\ (before <> [] ->
        a = Assembler.codeContext before ++ [newline; newline])
    /\ (after = [] -> b = [])
    /\ (after <> [] ->
        b = [newline; newline] ++ Assembler.codeContext after).
Proof.
  unfold Assembler.codeContext. rewrite map_app. cbn [map].
  rewrite join_app_cons, join_cons.
  exists (List.concat
            (map (fun y => y ++ [newline; newline])
               (map Assembler.block before))),
    (List.concat
       (map (fun y => [newline; newline] ++ y)
          (map Assembler.block after))).
  split; [reflexivity|]. repeat split.
  - intros ->. reflexivity.
  - intros H. apply join_suffixed. intros E. apply map_eq_nil in E.
    contradiction.
  - intros ->. reflexivity.
  - intros H. destruct after as [|g after]; [congruence|].
    cbn [map]. rewrite join_cons. reflexivity.
Qed.

Lemma codeContext_holds_every_file_witness :
  let a := {| Collector.path := lit "a.ts"; Collector.content := lit "x" |} in
  let b := {| Collector.path := lit "b.ts"; Collector.content := lit "y" |} in
  exists u v,
    Assembler.codeContext ([a] ++ b :: []) = u ++ Assembler.block b ++ v
    /\ u = Assembler.codeContext [a] ++ [newline; newline]
    /\ v = [].
Proof.
  intros a b.
  destruct (codeContext_holds_every_file [a] [] b)
    as (u & v & E & _ & Hu & Hv & _).
  exists u, v. split; [exact E|]. split; [apply Hu; discriminate|].
  apply Hv. reflexivity.
Defined.

(** ** SpecGenerator: what the normalisation keeps and removes *)

Section NormalisationParts.

(** What a match leaves is the end of the subject. *)
Lemma rmatch_suffix (r : re) :
  forall (b : bool) (s : jstr) (k : bool -> jstr -> option jstr) (t : jstr),
    rmatch r b s k = Some t ->
    exists m s' b', s = m ++ s' /\ k b' s' = Some t.
Proof.
  induction r as [| |c|r IH|r1 IH1 r2 IH2]; intros b s k t H;
    cbn [rmatch] in H.
  - destruct b; [|discriminate]. exists [], s, true. auto.
  - destruct s; [|discriminate]. exists [], [], b. auto.
  - destruct s as [|x s]; [discriminate|].
    destruct (canon_eqb c x); [|discriminate].
    exists [x], s, false. auto.
  - destruct (rmatch r b s k) eqn:E.
    + injection H as ->. exact (IH _ _ _ _ E).
    + exists [], s, b. auto.
  - destruct (IH1 _ _ _ _ H) as (m1 & s1 & b1 & -> & H1).
    destruct (IH2 _ _ _ _ H1) as (m2 & s2 & b2 & -> & H2).
    exists (m1 ++ m2), s2, b2. rewrite <- app_assoc. auto.
Qed.

Lemma replace_open_suffix (s : jstr) :
  exists a, s = a ++ replace_empty re_open s.
Proof.
  rewrite replace_open_here.
  destruct (rmatch re_open true s accept) as [t|] eqn:E.
  - destruct (rmatch_suffix _ _ _ _ _ E) as (m & s' & b' & -> & H).
    injection H as ->. exists m. reflexivity.
  - exists []. reflexivity.
Qed.

Lemma search_close_prefix (s : jstr) :
  forall b pre t,
    search re_close b pre s = Some t -> exists p w, s = p ++ w /\ t = pre ++ p.
Proof.
  induction s as [|x s IH]; intros b pre t; cbn [search];
    rewrite rmatch_close.
  - discriminate.
  - destruct (eqb (x :: s) (newline :: fence) || eqb (x :: s) fence).
    + intros H. injection H as <-. exists [], (x :: s).
      split; reflexivity.
    + intros H. destruct (IH _ _ _ H) as (p & w & -> & ->).
      exists (x :: p), w. rewrite <- app_assoc. split; reflexivity.
Qed.

Lemma replace_close_prefix (s : jstr) :
  exists b, s = replace_empty re_close s ++ b.
Proof.
  unfold replace_empty.
  destruct (search re_close true [] s) as [t|] eqn:E.
  - destruct (search_close_prefix _ _ _ _ E) as (p & w & -> & ->).
    exists w. reflexivity.
  - exists []. rewrite app_nil_r. reflexivity.
Qed.

(** The opening expression matches only a marker followed by an
    accepted tag. *)
Lemma rmatch_open_inv (s t : jstr) :
  rmatch re_open true s accept = Some t ->
  exists tag rest, s = fence ++ tag ++ rest /\ is_yaml_tag tag = true.
Proof.
  unfold re_open. cbn [rmatch]. intros H.
  repeat
    (match type of H with
     | context [match ?l with [] => _ | _ :: _ => _ end] =>
         is_var l; destruct l as [|? ?]
     | context [canon_eqb backtick ?x] => rewrite (canon_backtick x) in H
     | context [canon_eqb newline ?x] => rewrite (canon_newline x) in H
     | context [canon_eqb ?p ?x] => rewrite (canon_letter p x) in H by lia
     | context [N.eqb ?a ?c] => destruct (N.eqb_spec a c)
     end; cbn [rmatch accept] in H; try discriminate H; try lia);
    subst;
    first
      [ match goal with
        | Ha : lower ?a = 97%N |- exists _ _, _ :: _ :: _ :: ?y :: ?a :: ?m :: ?l :: ?r = _ /\ _ =>
            exists [y; a; m; l], r; split; [reflexivity|];
            unfold is_yaml_tag, toLowerCase; cbn [map];
            repeat match goal with E : lower _ = _ |- _ => rewrite E; clear E end;
            reflexivity
        end
      | match goal with
        | |- exists _ _, _ :: _ :: _ :: ?y :: ?m :: ?l :: ?r = _ /\ _ =>
            exists [y; m; l], r; split; [reflexivity|];
            unfold is_yaml_tag, toLowerCase; cbn [map];
            repeat match goal with E : lower _ = _ |- _ => rewrite E; clear E end;
            reflexivity
        end ].
Qed.

End NormalisationParts.

(** X5.  The normalisation adds and alters nothing: what is written is a
    contiguous part of the content of the response. *)
Theorem normalize_keeps_a_part (r : jstr) :
  exists a b, r = a ++ normalize (Some r) ++ b.
Proof.
  unfold normalize. rewrite or_default_some.
  destruct (replace_open_suffix r) as [a Ea].
  destruct (replace_close_prefix (replace_empty re_open r)) as [b Eb].
  destruct (trim_split (replace_empty re_close (replace_empty re_open r)))
    as (a' & b' & Et).
  exists (a ++ a'), (b' ++ b).
  rewrite Ea at 1. rewrite Eb at 1. rewrite Et at 1.
  rewrite <- !app_assoc. reflexivity.
Qed.

(** X6.  The opening replacement removes something exactly when the
    response starts with the fence marker directly followed by [yaml] or
    [yml] in any letter case: it then removes the marker, the tag and one
    line break after it, and otherwise leaves the response as it is. *)
Theorem opening_marker_removed_iff_yaml_tag (s : jstr) :
  (forall tag rest,
      is_yaml_tag tag = true -> s = fence ++ tag ++ rest ->
      replace_empty re_open s = drop_nl rest)
  /\ ((forall tag rest,
          is_yaml_tag tag = true -> s <> fence ++ tag ++ rest) ->
      replace_empty re_open s = s).
Proof.
  split.
  - intros tag rest Htag ->. apply replace_open_tag. exact Htag.
  - intros H. rewrite replace_open_here.
    destruct (rmatch re_open true s accept) as [t|] eqn:E; [|reflexivity].
    destruct (rmatch_open_inv _ _ E) as (tag & rest & Es & Htag).
    exfalso. exact (H tag rest Htag Es).
Qed.

Lemma opening_marker_removed_iff_yaml_tag_witness :
  replace_empty re_open (fence ++ lit "Yml" ++ lit "a: 1") = lit "a: 1"
  /\ replace_empty re_open (lit "a: 1") = lit "a: 1".
Proof.
  split.
  - apply (proj1 (opening_marker_removed_iff_yaml_tag
                    (fence ++ lit "Yml" ++ lit "a: 1"))
             (lit "Yml") (lit "a: 1")); reflexivity.
  - apply (proj2 (opening_marker_removed_iff_yaml_tag (lit "a: 1"))).
    intros tag rest _ E. destruct tag as [|c tag]; discriminate E.
Defined.

(** ** SpecGenerator: white space after the closing marker *)

Section TrailingWhiteSpace.

Lemma trimStart_app_nonws (a b : jstr) (x : N) :
  is_ws x = false -> trimStart (a ++ x :: b) = trimStart a ++ x :: b.
Proof.
  intros Hx. induction a as [|c a IH]; simpl.
  - rewrite Hx. reflexivity.
  - destruct (is_ws c); [exact IH|reflexivity].
Qed.

Lemma trimStart_ws_app (u v : jstr) :
  forallb is_ws u = true -> trimStart (u ++ v) = trimStart v.
Proof.
  induction u as [|c u IH]; simpl; [reflexivity|].
  intros H. apply andb_true_iff in H. destruct H as [Hc Hu].
  rewrite Hc. exact (IH Hu).
Qed.

Lemma forallb_rev (f : N -> bool) (w : jstr) :
  forallb f w = true -> forallb f (rev w) = true.
Proof.
  rewrite !forallb_forall. intros H x Hx. apply H, in_rev. exact Hx.
Qed.

Lemma trimEnd_app_ws (s w : jstr) :
  forallb is_ws w = true -> trimEnd (s ++ w) = trimEnd s.
Proof.
  intros H. unfold trimEnd. rewrite rev_app_distr.
  rewrite trimStart_ws_app by (apply forallb_rev; exact H). reflexivity.
Qed.

Lemma trimEnd_nonws_last (s : jstr) (x : N) :
  is_ws x = false -> trimEnd (s ++ [x]) = s ++ [x].
Proof.
  intros Hx. unfold trimEnd. rewrite rev_app_distr. simpl. rewrite Hx.
  simpl. rewrite rev_involutive. reflexivity.
Qed.

Lemma trimStart_drop_nl (s : jstr) : trimStart (drop_nl s) = trimStart s.
Proof.
  destruct s as [|c s]; [reflexivity|]. simpl.
  destruct (N.eqb_spec c newline) as [->|]; reflexivity.
Qed.

(** The closing expression does not match when white space ends the
    text. *)
Lemma replace_close_before_ws (s w : jstr) :
  w <> [] -> forallb is_ws w = true ->
  replace_empty re_close (s ++ w) = s ++ w.
Proof.
  intros Hne Hw. unfold replace_empty.
  destruct (search re_close true [] (s ++ w)) as [t|] eqn:E;
    [|reflexivity].
  exfalso. apply search_close_inv in E. destruct E as [p E].
  destruct (exists_last Hne) as (w' & c & ->).
  assert (Hc : is_ws c = true).
  { rewrite forallb_forall in Hw. apply Hw. apply in_elt. }
  change fence with ([backtick; backtick] ++ [backtick]) in E.
  rewrite !app_assoc in E. apply app_inj_tail in E.
  destruct E as [_ ->]. discriminate Hc.
Qed.

End TrailingWhiteSpace.

(** X7.  White space after the closing marker keeps this marker in what
    is written: for a response that starts with the fence marker and a
    [yaml] or [yml] tag and whose closing marker is followed by white
    space only, the opening marker and the tag are removed and what is
    written is the text in between, without the white space it begins
    with, followed by the closing marker. *)
Theorem closing_marker_before_white_space_is_kept (tag body w : jstr) :
  is_yaml_tag tag = true ->
  w <> [] ->
  forallb is_ws w = true ->
  normalize (Some (fence ++ tag ++ body ++ fence ++ w))
  = trimStart body ++ fence.
Proof.
  intros Htag Hne Hw. unfold normalize. rewrite or_default_some.
  rewrite (replace_open_tag tag (body ++ fence ++ w) Htag).
  assert (E : drop_nl (body ++ fence ++ w) = (drop_nl body ++ fence) ++ w).
  { rewrite <- app_assoc. destruct body as [|c body]; [reflexivity|].
    simpl. destruct (c =? newline)%N; reflexivity. }
  rewrite E, replace_close_before_ws by assumption.
  unfold trim, fence.
  rewrite <- !app_assoc. cbn [app].
  rewrite trimStart_app_nonws by reflexivity.
  change (trimStart (drop_nl body) ++ backtick :: backtick :: backtick :: w)
    with (trimStart (drop_nl body) ++ [backtick; backtick; backtick] ++ w).
  rewrite app_assoc, trimEnd_app_ws by exact Hw.
  change [backtick; backtick; backtick]
    with ([backtick; backtick] ++ [backtick]).
  rewrite app_assoc, trimEnd_nonws_last by reflexivity.
  rewrite trimStart_drop_nl, <- app_assoc. reflexivity.
Qed.

Lemma closing_marker_before_white_space_is_kept_witness :
  normalize (Some (fence ++ lit "yaml" ++ ([newline] ++ lit "openapi: 3.0.3"
                                             ++ [newline])
                     ++ fence ++ [newline]))
  = trimStart ([newline] ++ lit "openapi: 3.0.3" ++ [newline]) ++ fence.
Proof.
  apply (closing_marker_before_white_space_is_kept (lit "yaml")
           ([newline] ++ lit "openapi: 3.0.3" ++ [newline]) [newline]).
  - reflexivity.
  - discriminate.
  - reflexivity.
Defined.

(** ** QASession: the history and the events of a session *)

Section SessionShape.
Import Cli QASession Dialogue.

Variable api : nat -> api_result.
Variable model : jstr.

Lemma turn_trace (q : jstr) (st : qa_state) :
  trace (turn api model q st)
  = trace st
      ++ Request model
           (messages st ++ [{| role_of := user; content := q |}]) 300
      :: match api (requests (trace st)) with
         | ApiOk _ _ => []
         | ApiThrow error_message =>
             [SpinnerFail (lit "Failed to get response");
              LogError (or_default error_message (lit "Unknown error"))]
         end.
Proof.
  unfold turn. cbn [push log trace messages].
  destruct (api (requests (trace st))); cbn [push log trace messages].
  - reflexivity.
  - rewrite <- !app_assoc. reflexivity.
Qed.

Lemma turn_requests (q : jstr) (st : qa_state) :
  requests (trace (turn api model q st)) = Datatypes.S (requests (trace st)).
Proof.
  rewrite turn_trace, requests_app.
  destruct (api (requests (trace st)));
    cbv [requests filter is_request List.length]; lia.
Qed.

Lemma turn_exchange (q : jstr) (st : qa_state) :
  exists a, messages (turn api model q st) = messages st ++ exchange (q, a).
Proof.
  rewrite turn_messages. destruct (api (requests (trace st))).
  - eexists (Some _). reflexivity.
  - exists None. reflexivity.
Qed.


Lemma loop_events (script : list (option jstr)) :
  forall st,
    (exists h, messages st = system_message :: h) ->
    exists evs,
      trace (snd (loop api model script st)) = trace st ++ evs
      /\ Forall (session_event model) evs.
Proof.
  induction script as [|question script IH]; intros st [h Hst];
    cbn [loop].
  - exists []. rewrite app_nil_r. split; [reflexivity|constructor].
  - destruct (ends_session question).
    + exists [Prompted AskQuestion (text_answer question)].
      split; [reflexivity|]. repeat constructor.
    + set (st1 := log (Prompted AskQuestion (text_answer question)) st).
      set (q := or_default question []).
      destruct (IH (turn api model q st1)) as (evs & Ht & He).
      { destruct (turn_exchange q st1) as [a Ha]. rewrite Ha.
        unfold st1. cbn [log messages]. rewrite Hst.
        eexists. reflexivity. }
      rewrite Ht, turn_trace. unfold st1. cbn [log trace messages].
      rewrite <- !app_assoc. cbn [app]. eexists. split; [reflexivity|].
      constructor; [exact I|]. constructor.
      * split; [reflexivity|]. split; [reflexivity|].
        exists h, q. rewrite Hst. reflexivity.
      * apply Forall_app. split; [|exact He].
        destruct (api _); repeat constructor.
Qed.




Lemma loop_awaiting (script : list (option jstr)) :
  forall st,
    existsb ends_session script = false ->
    fst (loop api model script st) = Awaiting
    /\ requests (trace (snd (loop api model script st)))
       = (requests (trace st) + List.length script)%nat.
Proof.
  induction script as [|question script IH]; intros st H; cbn [loop].
  - split; [reflexivity|simpl; lia].
  - cbn [existsb] in H. apply orb_false_iff in H. destruct H as [Hq Hs].
    rewrite Hq.
    destruct (IH (turn api model (or_default question [])
                    (log (Prompted AskQuestion (text_answer question)) st))
                Hs) as [H1 H2].
    split; [exact H1|]. rewrite H2, turn_requests.
    cbn [log trace List.length]. rewrite requests_prompted. lia.
Qed.

Lemma loop_ended (script : list (option jstr)) :
  forall st,
    existsb ends_session script = true ->
    fst (loop api model script st) = Ended.
Proof.
  induction script as [|question script IH]; intros st H; cbn [loop].
  - discriminate.
  - cbn [existsb] in H. destruct (ends_session question); [reflexivity|].
    apply IH. exact H.
Qed.

End SessionShape.


(** X9.  A session only shows its prompt, issues requests and reports
    failures: the events it adds to a run are of these kinds, and every
    request it issues uses the model of the run, asks for 300 tokens at
    most, and carries messages that start with the system instruction and
    end with a question of the user. *)
Theorem qa_session_events
        (api : nat -> Cli.api_result) (model : jstr)
        (script : list (option jstr)) (tr : list Cli.event) :
  exists evs,
    QASession.trace (snd (QASession.runQA api model script tr)) = tr ++ evs
    /\ Forall (Dialogue.session_event model) evs.
Proof.
  unfold QASession.runQA.
  apply (loop_events api model script (QASession.initial tr)).
  exists []. reflexivity.
Qed.



(** X11.  A session ends exactly when one of the answers ends it; as long
    as none does, the loop waits for the next answer and has issued one
    request for each answer it has read. *)
Theorem qa_session_status
        (api : nat -> Cli.api_result) (model : jstr)
        (script : list (option jstr)) (st : QASession.qa_state) :
  (existsb QASession.ends_session script = true ->
   fst (QASession.loop api model script st) = QASession.Ended)
  /\ (existsb QASession.ends_session script = false ->
      fst (QASession.loop api model script st) = QASession.Awaiting
      /\ Cli.requests
           (QASession.trace (snd (QASession.loop api model script st)))
         = (Cli.requests (QASession.trace st) + List.length script)%nat).
Proof.
  split; [apply loop_ended|apply loop_awaiting].
Qed.

Lemma qa_session_status_witness :
  fst (QASession.loop (fun _ => Cli.ApiOk None None) (lit "gpt-4o-mini")
         [Some (lit "one"); Some (lit "two")] (QASession.initial []))
  = QASession.Awaiting
  /\ Cli.requests
       (QASession.trace
          (snd (QASession.loop (fun _ => Cli.ApiOk None None)
                  (lit "gpt-4o-mini")
                  [Some (lit "one"); Some (lit "two")]
                  (QASession.initial []))))
     = (Cli.requests (QASession.trace (QASession.initial [])) + 2)%nat.
Proof.
  apply (proj2 (qa_session_status (fun _ => Cli.ApiOk None None)
                  (lit "gpt-4o-mini") [Some (lit "one"); Some (lit "two")]
                  (QASession.initial []))).
  reflexivity.
Defined.

(** ** The action: the shape of every run *)

Section RunShape.
Import Collector Cli QASession Program Dialogue Shape.
Local Open Scope prog_scope.

Variables (opts : options) (e : env).

Lemma triple_assume {A : Type} (fact : Prop) (P : list event -> Prop)
      (m : M A) (Q : A -> list event -> Prop)
      (S : outcome -> list event -> Prop) :
  (fact -> triple P m Q S) -> triple (fun tr => P tr /\ fact) m Q S.
Proof. intros H tr [Hp Hfact]. exact (H Hfact tr Hp). Qed.

Lemma quiet_requests (tr : list event) :
  quiet tr = true -> requests tr = 0%nat.
Proof.
  unfold quiet, requests. induction tr as [|ev tr IH]; [reflexivity|].
  cbn [forallb filter]. intros H. apply andb_true_iff in H.
  destruct H as [Hev Htr]. destruct (is_request ev); [discriminate|].
  exact (IH Htr).
Qed.

Ltac quiet_goal Hq :=
  rewrite ?quiet_snoc, ?Hq; reflexivity.

Ltac exec_shape :=
  unfold confirm, text; unfold triple, bind, emit, ret, exit, stop;
  intros tr Hq; unfold Quiet in *; cbn beta iota;
  repeat match goal with
    | |- context [match ?x with _ => _ end] =>
        lazymatch x with
        | context [match _ with _ => _ end] => fail
        | _ => destruct x eqn:?; cbn beta iota
        end
    end;
  try (split; [|reflexivity]);
  first [quiet_goal Hq
        |apply shape_stopped; [quiet_goal Hq|discriminate]].

Lemma checkApiKey_shape :
  triple Quiet (checkApiKey opts e) (fun _ => Quiet) (run_shape opts e).
Proof. unfold checkApiKey. exec_shape. Qed.

Lemma awaitConsent_shape :
  triple Quiet (awaitConsent opts e) (fun _ => Quiet) (run_shape opts e).
Proof. unfold awaitConsent. exec_shape. Qed.

Lemma text_validated_shape (p : prompt) (valid : jstr -> bool)
      (inputs : list (option jstr)) :
  triple Quiet (text_validated p valid inputs)
    (fun _ => Quiet) (run_shape opts e).
Proof.
  induction inputs as [|[v|] inputs IH]; cbn [text_validated].
  - exec_shape.
  - destruct (valid v).
    + exec_shape.
    + eapply triple_bind with (Q := fun _ => Quiet);
        [|intros ?; exact IH].
      exec_shape.
  - exec_shape.
Qed.

Lemma awaitDirectory_shape (directory : option jstr) :
  triple Quiet (awaitDirectory directory opts e)
    (fun _ => Quiet) (run_shape opts e).
Proof.
  unfold awaitDirectory.
  eapply triple_bind with (Q := fun _ => Quiet).
  { exec_shape. }
  intros targetDir.
  eapply triple_bind with (Q := fun _ => Quiet).
  2: { intros ?. apply triple_ret. auto. }
  destruct (negb (truthy targetDir) && negb (yes opts)).
  2: { apply triple_ret. auto. }
  eapply triple_bind; [apply text_validated_shape|].
  intros [v|]; exec_shape.
Qed.

Lemma awaitOutputPath_shape :
  triple Quiet (awaitOutputPath opts e)
    (fun a tr => Quiet tr /\ a = resolved_output opts e)
    (run_shape opts e).
Proof. unfold awaitOutputPath, resolved_output. exec_shape. Qed.

Lemma awaitBaseUrl_shape :
  triple Quiet (awaitBaseUrl opts e)
    (fun a tr => Quiet tr /\ a = resolved_baseUrl opts e)
    (run_shape opts e).
Proof. unfold awaitBaseUrl, resolved_baseUrl. exec_shape. Qed.

Lemma generationFailed_report (error_message : option jstr)
      (tr : list event) :
  @generationFailed unit error_message tr
  = (Stop (Exit 1),
     tr ++ [SpinnerFail (lit "Generation failed");
            LogError (failure_report error_message)]).
Proof.
  unfold generationFailed, failure_report, bind, emit, exit, stop.
  destruct error_message as [m|]; cbn beta iota;
    repeat match goal with
      | |- context [if ?b then _ else _] => destruct b
      end;
    rewrite <- app_assoc; reflexivity.
Qed.

Lemma runQA_step_events (model : jstr) (tr : list event) :
  exists o post,
    (o = Returned \/ o = Blocked)
    /\ Forall (session_event model) post
    /\ runQA_step e model tr
       = (match o with Returned => Ok tt | _ => Stop o end, tr ++ post).
Proof.
  unfold runQA_step, runQA.
  destruct (loop_events (api e) model (questions (usr e)) (initial tr))
    as (evs & Ht & He); [exists []; reflexivity|].
  cbn [initial trace] in Ht.
  destruct (loop (api e) model (questions (usr e)) (initial tr))
    as [[|] st]; cbn [snd] in Ht; rewrite Ht.
  - exists Returned, evs. auto.
  - exists Blocked, evs. auto.
Qed.

Lemma generate_shape (targetDir : jstr) (stat : node) (tr : list event) :
  quiet tr = true ->
  fs e targetDir = Some stat ->
  scan stat targetDir <> [] ->
  exists o tr',
    generate e opts (scan stat targetDir) (resolved_output opts e)
      (resolved_baseUrl opts e) tr
    = (match o with Returned => Ok tt | _ => Stop o end, tr')
    /\ run_shape opts e o tr'.
Proof.
  intros Hq Hfs Hscan. unfold generate, create, confirm.
  unfold bind, emit, ret. cbn beta iota.
  rewrite (quiet_requests tr Hq).
  fold (generation_messages (resolved_baseUrl opts e) (scan stat targetDir)).
  set (request := Request (model opts)
                    (generation_messages (resolved_baseUrl opts e)
                       (scan stat targetDir)) 16000).
  destruct (api e 0) as [text tokens|error_message] eqn:Hapi;
    [destruct (writable e (resolved_output opts e)) eqn:Hw|].
  - set (write := WriteFile (resolved_output opts e) (normalize text)).
    destruct (yes opts) eqn:Hyes; cbn [negb]; cbn beta iota.
    + exists Returned. eexists. split; [reflexivity|].
      rewrite <- app_assoc.
      eapply shape_written with (post := []); eauto.
    + destruct (want_help (usr e)) as [[|]|]; cbn beta iota.
      * destruct (runQA_step_events (model opts)
                    (((tr ++ [request]) ++ [write])
                       ++ [Prompted AskHelp (confirm_answer (Some true))]))
          as (o & post & Ho & Hpost & ->).
        exists o. eexists. split; [reflexivity|].
        rewrite <- !app_assoc. cbn [app].
        eapply shape_written; eauto; [|congruence].
        constructor; [exact I|].
        eapply Forall_impl; [|exact Hpost].
        intros [[]| | | | | |]; simpl; tauto.
      * exists Returned. eexists. split; [reflexivity|].
        rewrite <- !app_assoc. cbn [app].
        eapply shape_written; eauto; [|congruence].
        repeat constructor.
      * exists Returned. eexists. split; [reflexivity|].
        rewrite <- !app_assoc. cbn [app].
        eapply shape_written; eauto; [|congruence].
        repeat constructor.
  - rewrite generationFailed_report. exists (Exit 1). eexists.
    split; [reflexivity|]. rewrite <- app_assoc.
    eapply shape_failed; eauto.
    right. exists text, tokens. auto.
  - rewrite generationFailed_report. exists (Exit 1). eexists.
    split; [reflexivity|]. rewrite <- app_assoc.
    eapply shape_failed; eauto.
Qed.

Lemma action_shape (directory : option jstr) :
  triple Quiet (action directory opts e)
    (fun _ => run_shape opts e Returned) (run_shape opts e).
Proof.
  unfold action.
  eapply triple_bind; [apply checkApiKey_shape|]. intros ?.
  eapply triple_bind; [apply awaitConsent_shape|]. intros ?.
  eapply triple_bind; [apply awaitDirectory_shape|]. intros targetDir.
  destruct (fs e targetDir) as [stat|] eqn:Hfs; [|exec_shape].
  eapply triple_bind with (Q := fun _ => Quiet).
  { destruct stat; exec_shape. }
  intros ?.
  eapply triple_bind; [apply awaitOutputPath_shape|]. intros outputFile.
  apply triple_assume. intros ->.
  eapply triple_bind; [apply awaitBaseUrl_shape|]. intros baseUrl.
  apply triple_assume. intros ->.
  cbv zeta. destruct (scan stat targetDir) as [|f files] eqn:Hscan;
    [exec_shape|].
  intros tr Hq.
  pose proof (generate_shape targetDir stat tr Hq Hfs) as H.
  rewrite Hscan in H.
  destruct (H ltac:(discriminate)) as (o & tr' & -> & Hs).
  destruct o; exact Hs.
Qed.

End RunShape.

Lemma run_shape_of_run
      (directory : option jstr) (opts : Cli.options) (e : Cli.env) :
  Shape.run_shape opts e (fst (Program.run directory opts e))
    (snd (Program.run directory opts e)).
Proof.
  unfold Program.run.
  pose proof (action_shape opts e directory [] eq_refl) as H.
  destruct (Program.action directory opts e []) as [[a|o] tr]; exact H.
Qed.

(** X12.  Every run has one of three shapes.  Either it stops before the
    generation, without request and without write; or it issues the
    request of the generation, which fails (the completion service throws
    or the output file cannot be written), reports the failure and exits
    with status 1; or it issues this request, writes the normalised
    response to the output file, and then only offers and holds the
    session of questions.  The request of the generation comes from a
    non-empty scan of an existing target. *)
Theorem run_has_shape
        (directory : option jstr) (opts : Cli.options) (e : Cli.env) :
  Shape.run_shape opts e (fst (Program.run directory opts e))
    (snd (Program.run directory opts e)).
Proof. apply run_shape_of_run. Qed.

(** ** The action: consequences of the shape of a run *)

Section ShapeConsequences.
Import Collector Cli QASession Program Dialogue Shape.

Lemma quiet_no_write (tr : list event) :
  quiet tr = true -> filter is_write tr = [].
Proof.
  unfold quiet. induction tr as [|ev tr IH]; [reflexivity|].
  cbn [forallb filter]. intros H. apply andb_true_iff in H.
  destruct H as [Hev Htr]. apply andb_true_iff in Hev.
  destruct (is_write ev); [destruct Hev; discriminate|]. exact (IH Htr).
Qed.

Lemma quiet_no_request (tr : list event) :
  quiet tr = true -> filter is_request tr = [].
Proof.
  unfold quiet. induction tr as [|ev tr IH]; [reflexivity|].
  cbn [forallb filter]. intros H. apply andb_true_iff in H.
  destruct H as [Hev Htr].
  destruct (is_request ev); [discriminate|]. exact (IH Htr).
Qed.

Lemma after_write_no_write (model : jstr) (post : list event) :
  Forall (after_write_event model) post -> filter is_write post = [].
Proof.
  induction 1 as [|ev post Hev _ IH]; [reflexivity|].
  cbn [filter]. destruct ev as [[] ?| | | | | |]; simpl in *;
    try contradiction; exact IH.
Qed.

Lemma after_write_requests (model : jstr) (post : list event) :
  Forall (after_write_event model) post ->
  Forall (session_event model) (filter is_request post).
Proof.
  induction 1 as [|ev post Hev _ IH]; [constructor|].
  cbn [filter]. destruct ev as [[] ?| | | | | |]; simpl in *;
    try contradiction; try exact IH.
  constructor; [exact Hev|exact IH].
Qed.

Lemma no_write_forallb (tr : list event) :
  filter is_write tr = [] ->
  forallb (fun ev => negb (is_write ev)) tr = true.
Proof.
  induction tr as [|ev tr IH]; [reflexivity|]. cbn [filter forallb].
  destruct (is_write ev); [discriminate|]. exact IH.
Qed.

End ShapeConsequences.

(** X13.  The exit status tells what the run has done.  A run that exits
    with status 0 has issued no request and written nothing; a run that
    exits with any status has written nothing and issued at most one
    request; a run whose action returns has written the output file
    exactly once, right after its first request. *)
Theorem exit_status_and_effects
        (directory : option jstr) (opts : Cli.options) (e : Cli.env) :
  (fst (Program.run directory opts e) = Cli.Exit 0 ->
   Cli.quiet (snd (Program.run directory opts e)) = true)
  /\ (forall code,
         fst (Program.run directory opts e) = Cli.Exit code ->
         forallb (fun ev => negb (Cli.is_write ev))
           (snd (Program.run directory opts e)) = true
         /\ (Cli.requests (snd (Program.run directory opts e)) <= 1)%nat)
  /\ (fst (Program.run directory opts e) = Cli.Returned ->
      exists pre request data post,
        snd (Program.run directory opts e)
        = pre ++ request
              :: Cli.WriteFile (Shape.resolved_output opts e) data :: post
        /\ Cli.quiet pre = true
        /\ Cli.is_request request = true
        /\ filter Cli.is_write post = []).
Proof.
  pose proof (run_shape_of_run directory opts e) as H.
  destruct (Program.run directory opts e) as [o tr]. cbn [fst snd] in *.
  inversion H as [o' tr' Hq Ho|pre t stat msg Hq Hfs Hscan Hfail
                 |pre t stat text tokens post o' Hq Hfs Hscan Hapi Hw Hpost
                    Hyes Ho]; subst.
  - split; [intros _; exact Hq|]. split; [|contradiction].
    intros code _. split.
    + apply no_write_forallb, quiet_no_write. exact Hq.
    + unfold Cli.requests. rewrite quiet_no_request by exact Hq. simpl. lia.
  - split; [discriminate|]. split; [|discriminate].
    intros code _. split.
    + apply no_write_forallb. rewrite filter_app, quiet_no_write by exact Hq.
      reflexivity.
    + unfold Cli.requests.
      rewrite filter_app, quiet_no_request by exact Hq. simpl. lia.
  - split; [destruct Ho; congruence|].
    split; [intros code E; destruct Ho; congruence|].
    intros _. exists pre. eexists. exists (normalize text), post.
    split; [reflexivity|]. split; [exact Hq|]. split; [reflexivity|].
    exact (after_write_no_write _ _ Hpost).
Qed.

Lemma exit_status_and_effects_witness :
  Cli.quiet (snd (Program.run None Scenario.interactive
                    (Scenario.machine Scenario.cancels_at_url))) = true.
Proof.
  apply (proj1 (exit_status_and_effects None Scenario.interactive
                  (Scenario.machine Scenario.cancels_at_url))).
  reflexivity.
Defined.

(** X14.  Where and what a run writes: every write of a run goes to the
    output file that the option or the prompt has given (or to the default
    name), this file is writable, and what is written is the normalised
    content of the response to the first request. *)
Theorem written_file_and_content
        (directory : option jstr) (opts : Cli.options) (e : Cli.env)
        (file data : jstr) :
  In (Cli.WriteFile file data) (snd (Program.run directory opts e)) ->
  file = Shape.resolved_output opts e
  /\ Cli.writable e file = true
  /\ exists text tokens,
      Cli.api e 0 = Cli.ApiOk text tokens /\ data = normalize text.
Proof.
  assert (Hnone : forall tr, filter Cli.is_write tr = [] ->
                             ~ In (Cli.WriteFile file data) tr).
  { intros tr Hf Hin.
    assert (H : In (Cli.WriteFile file data) (filter Cli.is_write tr))
      by (apply filter_In; split; [exact Hin|reflexivity]).
    rewrite Hf in H. exact H. }
  pose proof (run_shape_of_run directory opts e) as H.
  destruct (Program.run directory opts e) as [o tr]. cbn [fst snd] in *.
  intros Hin.
  inversion H as [o' tr' Hq Ho|pre t stat msg Hq Hfs Hscan Hfail
                 |pre t stat text tokens post o' Hq Hfs Hscan Hapi Hw Hpost
                    Hyes Ho]; subst.
  - exfalso. exact (Hnone _ (quiet_no_write _ Hq) Hin).
  - exfalso. apply in_app_or in Hin. destruct Hin as [Hin|Hin].
    + exact (Hnone _ (quiet_no_write _ Hq) Hin).
    + simpl in Hin. intuition discriminate.
  - apply in_app_or in Hin. destruct Hin as [Hin|[Hin|[Hin|Hin]]].
    + exfalso. exact (Hnone _ (quiet_no_write _ Hq) Hin).
    + discriminate.
    + injection Hin as <- <-. split; [reflexivity|]. split; [exact Hw|].
      exists text, tokens. auto.
    + exfalso. exact (Hnone _ (after_write_no_write _ _ Hpost) Hin).
Qed.

Lemma written_file_and_content_witness :
  lit "out.yaml"
  = Shape.resolved_output Scenario.yes_output
      (Scenario.machine Scenario.silent)
  /\ Cli.writable (Scenario.machine Scenario.silent) (lit "out.yaml") = true
  /\ exists text tokens,
      Cli.api (Scenario.machine Scenario.silent) 0 = Cli.ApiOk text tokens
      /\ lit "openapi: 3.0.3" = normalize text.
Proof.
  apply (written_file_and_content (Some (lit "./api")) Scenario.yes_output
           (Scenario.machine Scenario.silent)).
  vm_compute. right. left. reflexivity.
Defined.

(** X15.  When the completion service throws at the first request,
    nothing is written and the action does not return; and if the run has
    come to this request, it exits with status 1 after the report of the
    failure: the line for an invalid key when the message of the error
    holds 401, else the line for the rate limit when it holds 429, else
    the message itself, or a default text when there is none. *)
Theorem failed_generation_is_fatal
        (directory : option jstr) (opts : Cli.options) (e : Cli.env)
        (error_message : option jstr) :
  Cli.api e 0 = Cli.ApiThrow error_message ->
  fst (Program.run directory opts e) <> Cli.Returned
  /\ filter Cli.is_write (snd (Program.run directory opts e)) = []
  /\ (Cli.requests (snd (Program.run directory opts e)) <> 0%nat ->
      fst (Program.run directory opts e) = Cli.Exit 1
      /\ exists pre request,
          snd (Program.run directory opts e)
          = pre ++ [request; Cli.SpinnerFail (lit "Generation failed");
                    Cli.LogError (Shape.failure_report error_message)]
          /\ Cli.quiet pre = true
          /\ Cli.is_request request = true).
Proof.
  intros Hthrow.
  pose proof (run_shape_of_run directory opts e) as H.
  destruct (Program.run directory opts e) as [o tr]. cbn [fst snd] in *.
  inversion H as [o' tr' Hq Ho|pre t stat msg Hq Hfs Hscan Hfail
                 |pre t stat text tokens post o' Hq Hfs Hscan Hapi Hw Hpost
                    Hyes Ho]; subst.
  - split; [exact Ho|]. split; [exact (quiet_no_write _ Hq)|].
    intros Hr. exfalso. apply Hr. unfold Cli.requests.
    rewrite quiet_no_request by exact Hq. reflexivity.
  - split; [discriminate|]. split.
    + rewrite filter_app, quiet_no_write by exact Hq. reflexivity.
    + intros _. split; [reflexivity|].
      destruct Hfail as [Hfail|(text & tokens & Hfail & _)];
        [|congruence].
      assert (msg = error_message) as -> by congruence.
      exists pre. eexists. split; [reflexivity|]. split; [exact Hq|].
      reflexivity.
  - congruence.
Qed.

Lemma failed_generation_is_fatal_witness :
  let e := {| Cli.OPENAI_API_KEY := Some (lit "sk-test");
              Cli.fs := Scenario.disk;
              Cli.writable := fun _ => true;
              Cli.write_error := None;
              Cli.api := fun _ => Cli.ApiThrow
                                    (Some (lit "429 Too Many Requests"));
              Cli.usr := Scenario.silent |} in
  fst (Program.run (Some (lit "./api")) Scenario.yes_output e)
  <> Cli.Returned
  /\ filter Cli.is_write
       (snd (Program.run (Some (lit "./api")) Scenario.yes_output e)) = [].
Proof.
  intros e.
  destruct (failed_generation_is_fatal (Some (lit "./api"))
              Scenario.yes_output e (Some (lit "429 Too Many Requests"))
              eq_refl) as (H1 & H2 & _).
  split; [exact H1|exact H2].
Defined.

(** The report of this run. *)
Example rate_limited_run :
  let e := {| Cli.OPENAI_API_KEY := Some (lit "sk-test");
              Cli.fs := Scenario.disk;
              Cli.writable := fun _ => true;
              Cli.write_error := None;
              Cli.api := fun _ => Cli.ApiThrow
                                    (Some (lit "429 Too Many Requests"));
              Cli.usr := Scenario.silent |} in
  exists request,
    Program.run (Some (lit "./api")) Scenario.yes_output e
    = (Cli.Exit 1,
       [request; Cli.SpinnerFail (lit "Generation failed");
        Cli.LogError (lit "Rate limited - too many requests")]).
Proof. intros e. eexists. vm_compute. reflexivity. Qed.

(** X16.  The requests of a run: when a run issues requests, the first
    one is the request of the generation, for the model of the run and at
    most 16000 tokens, with the system instruction and one user message
    made of the resolved base URL and the context assembled from the
    non-empty scan of an existing target; all the others are requests of
    the session of questions. *)
Theorem requests_of_a_run
        (directory : option jstr) (opts : Cli.options) (e : Cli.env) :
  filter Cli.is_request (snd (Program.run directory opts e)) = []
  \/ exists targetDir stat rest,
      Cli.fs e targetDir = Some stat
      /\ Program.scan stat targetDir <> []
      /\ filter Cli.is_request (snd (Program.run directory opts e))
         = Cli.Request (Cli.model opts)
             (Shape.generation_messages (Shape.resolved_baseUrl opts e)
                (Program.scan stat targetDir)) 16000
           :: rest
      /\ Forall (Dialogue.session_event (Cli.model opts)) rest.
Proof.
  pose proof (run_shape_of_run directory opts e) as H.
  destruct (Program.run directory opts e) as [o tr]. cbn [fst snd] in *.
  inversion H as [o' tr' Hq Ho|pre t stat msg Hq Hfs Hscan Hfail
                 |pre t stat text tokens post o' Hq Hfs Hscan Hapi Hw Hpost
                    Hyes Ho]; subst.
  - left. exact (quiet_no_request _ Hq).
  - right. exists t, stat, []. split; [exact Hfs|]. split; [exact Hscan|].
    rewrite filter_app, quiet_no_request by exact Hq.
    split; [reflexivity|constructor].
  - right. exists t, stat, (filter Cli.is_request post).
    split; [exact Hfs|]. split; [exact Hscan|].
    rewrite filter_app, quiet_no_request by exact Hq.
    split; [reflexivity|]. exact (after_write_requests _ _ Hpost).
Qed.

(** ** The action: failures before the generation *)

Section EarlyFailures.
Import Collector Cli QASession Program.
Local Open Scope prog_scope.

Lemma text_validated_valid (p : prompt) (valid : jstr -> bool)
      (inputs : list (option jstr)) :
  forall tr v tr',
    text_validated p valid inputs tr = (Ok (Some v), tr') ->
    valid v = true.
Proof.
  induction inputs as [|[u|] inputs IH]; intros tr v tr';
    cbn [text_validated]; unfold bind, emit, ret, stop; cbn beta iota.
  - discriminate.
  - destruct (valid u) eqn:Hu.
    + intros H. injection H as <- _. exact Hu.
    + apply IH.
  - discriminate.
Qed.

(** A computation in two steps gives a value only if both steps do. *)
Lemma bind_ok {A B : Type} (m : M A) (k : A -> M B)
      (tr tr' : list event) (b : B) :
  (x <- m ;; k x) tr = (Ok b, tr') ->
  exists a tr1, m tr = (Ok a, tr1) /\ k a tr1 = (Ok b, tr').
Proof.
  unfold bind. destruct (m tr) as [[a|o] tr1]; [|discriminate].
  intros H. exists a, tr1. auto.
Qed.

End EarlyFailures.

(** X17.  Without an API key (no [--api-key] option, or an empty one, and
    no or an empty [OPENAI_API_KEY]) the run only reports the missing key
    and exits with status 1: no prompt is shown, even without [--yes],
    nothing is read, requested or written. *)
Theorem missing_key_exits_at_once
        (directory : option jstr) (opts : Cli.options) (e : Cli.env) :
  truthy (or_else (Cli.apiKey opts) (Cli.OPENAI_API_KEY e)) = false ->
  Program.run directory opts e
  = (Cli.Exit 1, [Cli.LogError (lit "Missing OpenAI API key")]).
Proof.
  intros H. unfold Program.run, Program.action, Program.checkApiKey.
  rewrite H. reflexivity.
Qed.

Lemma missing_key_exits_at_once_witness :
  Program.run None Scenario.interactive
    {| Cli.OPENAI_API_KEY := Some [];
       Cli.fs := Scenario.disk;
       Cli.writable := fun _ => true;
       Cli.write_error := None;
       Cli.api := fun _ => Scenario.fenced_response;
       Cli.usr := Scenario.cancels_at_url |}
  = (Cli.Exit 1, [Cli.LogError (lit "Missing OpenAI API key")]).
Proof.
  apply (missing_key_exits_at_once None Scenario.interactive).
  reflexivity.
Defined.

(** X18.  With [--yes] and a key, a target that does not exist (the
    argument, or the current directory when there is none) ends the run
    with status 1 after one report that names it: no prompt, no request,
    no write. *)
Theorem yes_with_missing_target_fails
        (directory : option jstr) (opts : Cli.options) (e : Cli.env) :
  Cli.yes opts = true ->
  truthy (or_else (Cli.apiKey opts) (Cli.OPENAI_API_KEY e)) = true ->
  Cli.fs e (or_default directory (lit ".")) = None ->
  Program.run directory opts e
  = (Cli.Exit 1,
     [Cli.LogError
        (lit "Can't find "
           ++ Program.quoted (or_default directory (lit ".")))]).
Proof.
  intros Hyes Hkey Hfs.
  unfold Program.run, Program.action, Program.checkApiKey,
    Program.awaitConsent, Program.awaitDirectory.
  rewrite Hyes, Hkey. cbn [negb].
  unfold Cli.bind, Cli.emit, Cli.ret, Cli.exit, Cli.stop. cbn beta iota.
  destruct directory as [d|]; rewrite ?andb_false_r; cbn beta iota;
    rewrite ?andb_false_r; cbn beta iota; rewrite Hfs; reflexivity.
Qed.

Lemma yes_with_missing_target_fails_witness :
  Program.run (Some (lit "./nowhere")) Scenario.yes_output
    (Scenario.machine Scenario.silent)
  = (Cli.Exit 1,
     [Cli.LogError
        (lit "Can't find "
           ++ Program.quoted (or_default (Some (lit "./nowhere")) (lit ".")))]).
Proof.
  apply (yes_with_missing_target_fails (Some (lit "./nowhere"))
           Scenario.yes_output (Scenario.machine Scenario.silent));
    reflexivity.
Defined.

(** X19.  With [--yes] and a key, a directory in which [collectFiles]
    finds nothing ends the run with status 1 after the report that no
    source file was found: no request is issued and nothing is written. *)
Theorem yes_with_empty_scan_fails
        (directory : option jstr) (opts : Cli.options) (e : Cli.env)
        (entries : list (jstr * Collector.node)) :
  Cli.yes opts = true ->
  truthy (or_else (Cli.apiKey opts) (Cli.OPENAI_API_KEY e)) = true ->
  Cli.fs e (or_default directory (lit ".")) = Some (Collector.Dir entries) ->
  Collector.collectFiles [] entries = [] ->
  Program.run directory opts e
  = (Cli.Exit 1, [Cli.LogError (lit "No source files found")]).
Proof.
  intros Hyes Hkey Hfs Hscan.
  unfold Program.run, Program.action, Program.checkApiKey,
    Program.awaitConsent, Program.awaitDirectory, Program.awaitOutputPath,
    Program.awaitBaseUrl.
  rewrite Hyes, Hkey. cbn [negb].
  unfold Cli.bind, Cli.emit, Cli.ret, Cli.exit, Cli.stop. cbn beta iota.
  destruct directory as [d|]; rewrite ?andb_false_r; cbn beta iota;
    rewrite ?andb_false_r; cbn beta iota; rewrite Hfs; cbn beta iota zeta;
    rewrite ?andb_false_r; cbn beta iota; cbn [Program.scan];
    rewrite Hscan; reflexivity.
Qed.

Lemma yes_with_empty_scan_fails_witness :
  Program.run (Some (lit "docs")) Scenario.yes_output
    {| Cli.OPENAI_API_KEY := Some (lit "sk-test");
       Cli.fs := fun p =>
                   if eqb p (lit "docs")
                   then Some (Collector.Dir
                                [(lit "README.md",
                                   Collector.File 120 (lit "# API"));
                                 (lit ".git", Collector.Dir [])])
                   else None;
       Cli.writable := fun _ => true;
       Cli.write_error := None;
       Cli.api := fun _ => Scenario.fenced_response;
       Cli.usr := Scenario.silent |}
  = (Cli.Exit 1, [Cli.LogError (lit "No source files found")]).
Proof.
  apply (yes_with_empty_scan_fails (Some (lit "docs")) Scenario.yes_output
           _ [(lit "README.md", Collector.File 120 (lit "# API"));
              (lit ".git", Collector.Dir [])]);
    reflexivity.
Defined.

(** X20.  Without [--yes], the step that resolves the directory only
    gives a path that exists to the rest of the action: an argument that
    does not exist is dropped for the prompt, and the prompt only accepts
    a path that exists (the empty path never exists). *)
Theorem interactive_directory_exists
        (directory : option jstr) (opts : Cli.options) (e : Cli.env)
        (tr tr' : list Cli.event) (targetDir : jstr) :
  Cli.yes opts = false ->
  Cli.fs e [] = None ->
  Program.awaitDirectory directory opts e tr = (Cli.Ok targetDir, tr') ->
  Program.existsSync e targetDir = true.
Proof.
  intros Hyes Hempty H.
  assert (Hnil : Program.existsSync e [] = false)
    by (unfold Program.existsSync; rewrite Hempty; reflexivity).
  unfold Program.awaitDirectory in H. rewrite Hyes in H. cbn [negb] in H.
  apply bind_ok in H. destruct H as (t1 & tr1 & H1 & H).
  apply bind_ok in H. destruct H as (t2 & tr2 & H2 & H).
  unfold Cli.ret in H. injection H as <- _.
  assert (Ht1 : truthy t1 = true ->
                exists d, t1 = Some d /\ Program.existsSync e d = true).
  { destruct directory as [d|].
    - rewrite andb_true_r in H1.
      destruct (truthy (Some d)) eqn:Hd; cbn [andb] in H1.
      + destruct (Program.existsSync e d) eqn:He; cbn [negb] in H1.
        * unfold Cli.ret in H1. injection H1 as <- _. intros _.
          exists d. auto.
        * apply bind_ok in H1. destruct H1 as (? & ? & _ & H1).
          unfold Cli.ret in H1. injection H1 as <- _. discriminate.
      + unfold Cli.ret in H1. injection H1 as <- _. congruence.
    - unfold Cli.ret in H1. injection H1 as <- _. discriminate. }
  rewrite andb_true_r in H2. destruct (truthy t1) eqn:Ht; cbn [negb] in H2.
  - unfold Cli.ret in H2. injection H2 as <- _.
    destruct (Ht1 eq_refl) as (d & -> & He).
    destruct d as [|c d]; [discriminate|exact He].
  - apply bind_ok in H2. destruct H2 as ([v|] & tr3 & Hv & H2).
    + unfold Cli.ret in H2. injection H2 as <- _.
      apply text_validated_valid in Hv.
      destruct v as [|c v]; [congruence|exact Hv].
    + discriminate.
Qed.

Lemma interactive_directory_exists_witness :
  Program.existsSync (Scenario.machine Scenario.cancels_at_url)
    (lit "./api") = true.
Proof.
  apply (interactive_directory_exists (Some (lit "./typo"))
           Scenario.interactive (Scenario.machine Scenario.cancels_at_url)
           []
           [Cli.Warned (lit "Can't find " ++ Program.quoted (lit "./typo"));
            Cli.Rejected Cli.AskDirectory (lit "./nowhere");
            Cli.Prompted Cli.AskDirectory (Cli.Text (lit "./api"))]
           (lit "./api"));
    reflexivity.
Defined.

(** X21.  Without [--yes], a declined consent ends the run with status 0
    right after the question: nothing is scanned, requested or written. *)
Theorem declined_consent_sends_nothing
        (directory : option jstr) (opts : Cli.options) (e : Cli.env) :
  Cli.yes opts = false ->
  truthy (or_else (Cli.apiKey opts) (Cli.OPENAI_API_KEY e)) = true ->
  Cli.consent (Cli.usr e) = Some false ->
  Program.run directory opts e
  = (Cli.Exit 0, [Cli.Prompted Cli.AskConsent (Cli.Bool false)]).
Proof.
  intros Hyes Hkey Hconsent.
  unfold Program.run, Program.action, Program.checkApiKey,
    Program.awaitConsent, Program.confirm.
  rewrite Hyes, Hkey, Hconsent. reflexivity.
Qed.

Lemma declined_consent_sends_nothing_witness :
  Program.run (Some (lit "./api")) Scenario.interactive
    (Scenario.machine
       {| Cli.consent := Some false; Cli.dir_inputs := [];
          Cli.output_input := None; Cli.url_input := None;
          Cli.want_help := None; Cli.questions := [] |})
  = (Cli.Exit 0, [Cli.Prompted Cli.AskConsent (Cli.Bool false)]).
Proof.
  apply (declined_consent_sends_nothing (Some (lit "./api"))
           Scenario.interactive);
    reflexivity.
Defined.

(** ** The action: what is asked *)

Section AskedFor.
Import Collector Cli QASession Program Dialogue Asking.
Local Open Scope prog_scope.

Variables (directory : option jstr) (opts : options) (e : env).

Lemma Asked_snoc (tr : list event) (ev : event) :
  (Asked directory opts e) tr -> asked_for directory opts e ev -> (Asked directory opts e) (tr ++ [ev]).
Proof.
  intros Htr Hev. apply Forall_app. split; [exact Htr|].
  constructor; [exact Hev|constructor].
Qed.

Ltac facts :=
  repeat match goal with
    | H : _ && _ = true |- _ => apply andb_true_iff in H; destruct H
    | H : negb _ = true |- _ => apply negb_true_iff in H
    | H : negb _ = false |- _ => apply negb_false_iff in H
    end.

Ltac solve_event :=
  simpl; repeat split; auto;
  repeat match goal with
    | H : ?l = _ |- context [?l] => rewrite H
    end;
  try reflexivity; try congruence.

Ltac exec_asked :=
  unfold confirm, text; unfold triple, bind, emit, ret, exit, stop;
  intros tr Ha; cbn beta iota;
  repeat match goal with
    | |- context [match ?x with _ => _ end] =>
        lazymatch x with
        | context [match _ with _ => _ end] => fail
        | _ => destruct x eqn:?; cbn beta iota
        end
    end;
  facts;
  repeat (apply Asked_snoc; [|solve_event]);
  try exact Ha.

Lemma checkApiKey_asked :
  triple (Asked directory opts e) (checkApiKey opts e) (fun _ => Asked directory opts e) (fun _ => Asked directory opts e).
Proof. unfold checkApiKey. exec_asked. Qed.

Lemma awaitConsent_asked :
  triple (Asked directory opts e) (awaitConsent opts e) (fun _ => Asked directory opts e) (fun _ => Asked directory opts e).
Proof. unfold awaitConsent. exec_asked. Qed.

Lemma awaitOutputPath_asked :
  triple (Asked directory opts e) (awaitOutputPath opts e) (fun _ => Asked directory opts e) (fun _ => Asked directory opts e).
Proof. unfold awaitOutputPath. exec_asked. Qed.

Lemma awaitBaseUrl_asked :
  triple (Asked directory opts e) (awaitBaseUrl opts e) (fun _ => Asked directory opts e) (fun _ => Asked directory opts e).
Proof. unfold awaitBaseUrl. exec_asked. Qed.

Lemma text_validated_asked (inputs : list (option jstr)) :
  yes opts = false ->
  (truthy directory = false
   \/ exists d, directory = Some d /\ existsSync e d = false) ->
  triple (Asked directory opts e) (text_validated AskDirectory (existsSync e) inputs)
    (fun _ => Asked directory opts e) (fun _ => Asked directory opts e).
Proof.
  intros Hyes Hdir.
  induction inputs as [|[v|] inputs IH]; cbn [text_validated].
  - exec_asked.
  - destruct (existsSync e v) eqn:Hv.
    + exec_asked.
    + eapply triple_bind with (Q := fun _ => Asked directory opts e);
        [|intros ?; exact IH].
      exec_asked.
  - exec_asked.
Qed.

Lemma awaitDirectory_asked :
  triple (Asked directory opts e) (awaitDirectory directory opts e)
    (fun _ => Asked directory opts e) (fun _ => Asked directory opts e).
Proof.
  unfold awaitDirectory.
  eapply triple_bind with
    (Q := fun t tr =>
            (Asked directory opts e) tr
            /\ (t = directory
                \/ exists d, directory = Some d /\ existsSync e d = false)).
  { unfold triple, bind, emit, ret. intros tr Ha.
    destruct directory as [d|] eqn:Hd; [|auto].
    destruct (truthy (Some d) && negb (existsSync e d) && negb (yes opts))
      eqn:Hc; cbn beta iota; [|auto].
    facts. rewrite <- Hd in Ha |- *.
    split; [apply Asked_snoc; [exact Ha|exact I]|].
    right. exists d. auto. }
  intros t. apply triple_assume. intros Ht.
  eapply triple_bind with (Q := fun _ => Asked directory opts e).
  2: { intros ?. apply triple_ret. auto. }
  destruct (negb (truthy t) && negb (yes opts)) eqn:Hc.
  2: { apply triple_ret. auto. }
  facts.
  eapply triple_bind with (Q := fun _ => Asked directory opts e).
  - apply text_validated_asked; [assumption|].
    destruct Ht as [->|Ht]; [left; assumption|right; exact Ht].
  - intros [v|]; exec_asked.
Qed.

Lemma runQA_step_asked :
  yes opts = false ->
  want_help (usr e) = Some true ->
  triple (Asked directory opts e) (runQA_step e (model opts))
    (fun _ => Asked directory opts e) (fun _ => Asked directory opts e).
Proof.
  intros Hyes Hhelp tr Ha.
  destruct (runQA_step_events e (model opts) tr)
    as (o & post & Ho & Hpost & ->).
  assert (H : (Asked directory opts e) (tr ++ post)).
  { apply Forall_app. split; [exact Ha|].
    eapply Forall_impl; [|exact Hpost].
    intros [[]| | | | | |]; simpl; tauto. }
  destruct Ho as [->| ->]; exact H.
Qed.

Lemma generate_asked (files : list SourceFile) (outputFile baseUrl : jstr) :
  triple (Asked directory opts e) (generate e opts files outputFile baseUrl)
    (fun _ => Asked directory opts e) (fun _ => Asked directory opts e).
Proof.
  unfold generate.
  eapply triple_bind with (Q := fun _ => Asked directory opts e).
  { unfold create. intros tr Ha. apply Asked_snoc; [exact Ha|exact I]. }
  intros [content tokens|error_message].
  2: { intros tr Ha. rewrite generationFailed_report.
       apply Forall_app. split; [exact Ha|]. repeat constructor. }
  destruct (writable e outputFile).
  2: { intros tr Ha. rewrite generationFailed_report.
       apply Forall_app. split; [exact Ha|]. repeat constructor. }
  eapply triple_bind with (Q := fun _ => Asked directory opts e).
  { apply triple_emit. intros tr Ha. apply Asked_snoc; [exact Ha|exact I]. }
  intros ?. destruct (negb (yes opts)) eqn:Hyes; [|apply triple_ret; auto].
  facts.
  eapply triple_bind with
    (Q := fun a tr => (Asked directory opts e) tr /\ a = want_help (usr e)).
  { unfold confirm, triple, bind, emit, ret. intros tr Ha.
    split; [|reflexivity]. apply Asked_snoc; [exact Ha|].
    simpl. auto. }
  intros answer. apply triple_assume. intros ->.
  destruct (want_help (usr e)) as [[|]|] eqn:Hhelp;
    [apply runQA_step_asked; assumption| |]; apply triple_ret; auto.
Qed.

Lemma action_asked :
  triple (Asked directory opts e) (action directory opts e)
    (fun _ => Asked directory opts e) (fun _ => Asked directory opts e).
Proof.
  unfold action.
  eapply triple_bind; [apply checkApiKey_asked|]. intros ?.
  eapply triple_bind; [apply awaitConsent_asked|]. intros ?.
  eapply triple_bind; [apply awaitDirectory_asked|]. intros targetDir.
  destruct (fs e targetDir) as [stat|]; [|exec_asked].
  eapply triple_bind with (Q := fun _ => Asked directory opts e).
  { destruct stat; exec_asked. }
  intros ?.
  eapply triple_bind; [apply awaitOutputPath_asked|]. intros outputFile.
  eapply triple_bind; [apply awaitBaseUrl_asked|]. intros baseUrl.
  cbv zeta. destruct (scan stat targetDir); [exec_asked|].
  apply generate_asked.
Qed.

End AskedFor.

(** X22.  A run only asks for what it lacks.  Every prompt is shown
    without [--yes] only; the directory is asked for only when the
    argument is absent, empty or does not exist, and a submission is
    refused only when it does not exist; the output file and the base URL
    are asked for only when their option is absent or empty; the questions
    of the session are asked only after the user has accepted the offer.
    The answers of the prompts that are shown once are those of the
    user. *)
Theorem run_asks_only_what_is_missing
        (directory : option jstr) (opts : Cli.options) (e : Cli.env) :
  Forall (Asking.asked_for directory opts e)
    (snd (Program.run directory opts e)).
Proof.
  unfold Program.run.
  pose proof (action_asked directory opts e [] (Forall_nil _)) as H.
  destruct (Program.action directory opts e []) as [[a|o] tr]; exact H.
Qed.

(** ** The action: the reasons of an exit *)

Section ExitReasons.
Import Collector Cli QASession Program Exits.
Local Open Scope prog_scope.

Variables (opts : options) (e : env).

Ltac exit_goal :=
  try exact I;
  try (unfold exit_reason; do 2 eexists; split; [reflexivity|];
       solve [left; split; [reflexivity|]; do 2 eexists;
              split; [reflexivity|]; split; [reflexivity|]; auto
             |right; split; [reflexivity|]; eexists; reflexivity]).

Ltac exec_exit :=
  unfold confirm, text; unfold triple, bind, emit, ret, exit, stop;
  intros tr _; unfold Anything; cbn beta iota;
  repeat match goal with
    | |- context [match ?x with _ => _ end] =>
        lazymatch x with
        | context [match _ with _ => _ end] => fail
        | _ => destruct x eqn:?; cbn beta iota
        end
    end;
  exit_goal.

Lemma checkApiKey_exit :
  triple Anything (checkApiKey opts e) (fun _ => Anything) exit_reason.
Proof. unfold checkApiKey. exec_exit. Qed.

Lemma awaitConsent_exit :
  triple Anything (awaitConsent opts e) (fun _ => Anything) exit_reason.
Proof. unfold awaitConsent. exec_exit. Qed.

Lemma awaitOutputPath_exit :
  triple Anything (awaitOutputPath opts e) (fun _ => Anything) exit_reason.
Proof. unfold awaitOutputPath. exec_exit. Qed.

Lemma awaitBaseUrl_exit :
  triple Anything (awaitBaseUrl opts e) (fun _ => Anything) exit_reason.
Proof. unfold awaitBaseUrl. exec_exit. Qed.

Lemma text_validated_exit (valid : jstr -> bool)
      (inputs : list (option jstr)) :
  triple Anything (text_validated AskDirectory valid inputs)
    (fun a tr =>
       a = None -> exists pre, tr = pre ++ [Prompted AskDirectory Cancel])
    exit_reason.
Proof.
  induction inputs as [|[v|] inputs IH]; cbn [text_validated].
  - intros tr _. exact I.
  - destruct (valid v).
    + intros tr _. unfold bind, emit, ret. cbn beta iota. discriminate.
    + eapply triple_bind with (Q := fun _ => Anything);
        [|intros ?; exact IH].
      intros tr _. exact I.
  - intros tr _. unfold bind, emit, ret. cbn beta iota. intros _.
    exists tr. reflexivity.
Qed.

Lemma awaitDirectory_exit (directory : option jstr) :
  triple Anything (awaitDirectory directory opts e)
    (fun _ => Anything) exit_reason.
Proof.
  unfold awaitDirectory.
  eapply triple_bind with (Q := fun _ => Anything).
  { exec_exit. }
  intros targetDir.
  eapply triple_bind with (Q := fun _ => Anything).
  2: { intros ?. apply triple_ret. auto. }
  destruct (negb (truthy targetDir) && negb (yes opts)).
  2: { apply triple_ret. auto. }
  eapply triple_bind; [apply text_validated_exit|].
  intros [v|] tr H; unfold ret, exit, stop; [exact I|].
  destruct (H eq_refl) as [pre ->].
  exists pre. eexists. split; [reflexivity|]. left. split; [reflexivity|].
  do 2 eexists. split; [reflexivity|]. split; [reflexivity|]. auto.
Qed.

Lemma generate_exit (files : list SourceFile) (outputFile baseUrl : jstr) :
  triple Anything (generate e opts files outputFile baseUrl)
    (fun _ => Anything) exit_reason.
Proof.
  unfold generate.
  eapply triple_bind with (Q := fun _ => Anything).
  { intros tr _. exact I. }
  assert (Hfail : forall msg,
             triple Anything (@generationFailed unit msg)
               (fun _ => Anything) exit_reason).
  { intros msg tr _. rewrite generationFailed_report.
    exists (tr ++ [SpinnerFail (lit "Generation failed")]). eexists.
    split; [rewrite <- app_assoc; reflexivity|].
    right. split; [reflexivity|]. eexists. reflexivity. }
  intros [content tokens|error_message]; [|apply Hfail].
  destruct (writable e outputFile); [|apply Hfail].
  eapply triple_bind with (Q := fun _ => Anything).
  { intros tr _. exact I. }
  intros ?. destruct (negb (yes opts)); [|apply triple_ret; auto].
  eapply triple_bind with (Q := fun _ => Anything).
  { intros tr _. exact I. }
  intros [[|]|]; [|apply triple_ret; auto|apply triple_ret; auto].
  intros tr _.
  destruct (runQA_step_events e (model opts) tr)
    as (o & post & [->| ->] & _ & ->); exact I.
Qed.

Lemma action_exit (directory : option jstr) :
  triple Anything (action directory opts e)
    (fun _ => Anything) exit_reason.
Proof.
  unfold action.
  eapply triple_bind; [apply checkApiKey_exit|]. intros ?.
  eapply triple_bind; [apply awaitConsent_exit|]. intros ?.
  eapply triple_bind; [apply awaitDirectory_exit|]. intros targetDir.
  destruct (fs e targetDir) as [stat|]; [|exec_exit].
  eapply triple_bind with (Q := fun _ => Anything).
  { destruct stat; exec_exit. }
  intros ?.
  eapply triple_bind; [apply awaitOutputPath_exit|]. intros outputFile.
  eapply triple_bind; [apply awaitBaseUrl_exit|]. intros baseUrl.
  cbv zeta. destruct (scan stat targetDir); [exec_exit|].
  apply generate_exit.
Qed.

End ExitReasons.

(** X23.  The exit status of a run is 0 or 1, and the last event tells
    why: a run exits with status 0 only right after the user has
    cancelled or refused at one of the four prompts for a parameter, and
    with status 1 only right after the report of an error. *)
Theorem exit_status_has_a_reason
        (directory : option jstr) (opts : Cli.options) (e : Cli.env) :
  Exits.exit_reason (fst (Program.run directory opts e))
    (snd (Program.run directory opts e)).
Proof.
  unfold Program.run.
  pose proof (action_exit opts e directory [] I) as H.
  destruct (Program.action directory opts e []) as [[a|o] tr];
    [exact I|exact H].
Qed.

(** ** FileCollector: the filter on extensions *)

Section ExtensionFilter.
Import Collector.

Lemma last_dot_split (s pre ext : jstr) :
  last_dot s = Some (pre, ext) -> s = pre ++ ext.
Proof.
  revert pre ext. induction s as [|c s IH]; intros pre ext; cbn [last_dot].
  - discriminate.
  - destruct (last_dot s) as [[pre' ext']|].
    + intros H. injection H as <- <-. rewrite (IH pre' ext' eq_refl).
      reflexivity.
    + destruct (c =? dot)%N; [|discriminate].
      intros H. injection H as <- <-. reflexivity.
Qed.

Lemma last_dot_none (s : jstr) : ~ In dot s -> last_dot s = None.
Proof.
  induction s as [|c s IH]; [reflexivity|]. intros H. cbn [last_dot].
  rewrite IH by (intros Hin; apply H; right; exact Hin).
  destruct (N.eqb_spec c dot) as [->|]; [|reflexivity].
  exfalso. apply H. left. reflexivity.
Qed.

Lemma last_dot_app (stem letters : jstr) :
  ~ In dot letters ->
  last_dot (stem ++ dot :: letters) = Some (stem, dot :: letters).
Proof.
  intros H. induction stem as [|c stem IH].
  - cbn [app last_dot]. rewrite (last_dot_none letters H). reflexivity.
  - cbn [app last_dot]. rewrite IH. reflexivity.
Qed.

Lemma extension_shape (ext : jstr) :
  In ext EXTENSIONS ->
  exists letters, ext = dot :: letters /\ letters <> [] /\ ~ In dot letters.
Proof.
  intros H. repeat (destruct H as [<-|H]; [eexists; split; [reflexivity|];
                                           split; [discriminate|];
                                           vm_compute; intuition discriminate|]).
  destruct H.
Qed.

End ExtensionFilter.

(** X24.  The filter on extensions accepts exactly the names that are made
    of a non-empty stem followed by one of the ten extensions, in the
    letter case of the list. *)
Theorem extension_filter_accepts_suffixes (name : jstr) :
  includes Collector.EXTENSIONS (Collector.extname name) = true
  <-> exists stem ext,
      stem <> [] /\ In ext Collector.EXTENSIONS /\ name = stem ++ ext.
Proof.
  unfold includes. rewrite existsb_exists. split.
  - intros (ext & Hin & Heq). apply eqb_true_iff in Heq.
    destruct (extension_shape ext Hin) as (letters & -> & Hne & _).
    unfold Collector.extname in Heq.
    destruct (Collector.last_dot name) as [[pre ext']|] eqn:E;
      [|discriminate].
    destruct pre as [|c pre]; [discriminate|].
    destruct (eqb (c :: pre) [Collector.dot] && eqb ext' [Collector.dot]);
      [discriminate|].
    subst ext'. exists (c :: pre), (Collector.dot :: letters).
    split; [discriminate|]. split; [exact Hin|].
    exact (last_dot_split _ _ _ E).
  - intros (stem & ext & Hstem & Hin & ->).
    exists ext. split; [exact Hin|]. apply eqb_true_iff.
    destruct (extension_shape ext Hin) as (letters & -> & Hne & Hdot).
    unfold Collector.extname. rewrite (last_dot_app stem letters Hdot).
    destruct stem as [|c stem]; [congruence|].
    destruct (eqb (Collector.dot :: letters) [Collector.dot]) eqn:E.
    + apply eqb_true_iff in E. injection E as E. contradiction.
    + rewrite andb_false_r. reflexivity.
Qed.

Lemma extension_filter_accepts_suffixes_witness :
  includes Collector.EXTENSIONS (Collector.extname (lit "user.routes.ts"))
  = true.
Proof.
  apply (proj2 (extension_filter_accepts_suffixes (lit "user.routes.ts"))).
  exists (lit "user.routes"), (lit ".ts").
  split; [discriminate|]. split; [|reflexivity].
  left. reflexivity.
Defined.

(** ** SpecGenerator: the written text and the response *)

Section WrittenExactly.
Import Collector Cli QASession Program Dialogue Shape.

(** Every write of a run holds the normalised content of the response to
    the first request. *)
Lemma write_carries_first_response
      (directory : option jstr) (opts : options) (e : env)
      (file data : jstr) :
  In (WriteFile file data) (snd (run directory opts e)) ->
  exists text tokens, api e 0 = ApiOk text tokens /\ data = normalize text.
Proof.
  assert (Hnone : forall tr, filter is_write tr = [] ->
                             ~ In (WriteFile file data) tr).
  { intros tr Hf Hin.
    assert (H : In (WriteFile file data) (filter is_write tr))
      by (apply filter_In; split; [exact Hin|reflexivity]).
    rewrite Hf in H. exact H. }
  pose proof (run_shape_of_run directory opts e) as H.
  destruct (run directory opts e) as [o tr]. cbn [fst snd] in *.
  intros Hin.
  inversion H as [o' tr' Hq Ho|pre t stat msg Hq Hfs Hscan Hfail
                 |pre t stat text tokens post o' Hq Hfs Hscan Hapi Hw Hpost
                    Hyes Ho]; subst.
  - exfalso. exact (Hnone _ (quiet_no_write _ Hq) Hin).
  - exfalso. apply in_app_or in Hin. destruct Hin as [Hin|Hin].
    + exact (Hnone _ (quiet_no_write _ Hq) Hin).
    + simpl in Hin. intuition discriminate.
  - apply in_app_or in Hin. destruct Hin as [Hin|[Hin|[Hin|Hin]]].
    + exfalso. exact (Hnone _ (quiet_no_write _ Hq) Hin).
    + discriminate.
    + injection Hin as _ <-. exists text, tokens. auto.
    + exfalso. exact (Hnone _ (after_write_no_write _ _ Hpost) Hin).
Qed.

(** With [--yes], a key, a target with source files, a completed request
    and a writable output file, the run ends with the write of the
    normalised response. *)
Lemma yes_run_writes
      (directory : option jstr) (opts : options) (e : env)
      (stat : node) (text : option jstr) (tokens : option N) :
  yes opts = true ->
  truthy (or_else (apiKey opts) (OPENAI_API_KEY e)) = true ->
  fs e (or_default directory (lit ".")) = Some stat ->
  scan stat (or_default directory (lit ".")) <> [] ->
  api e 0 = ApiOk text tokens ->
  writable e (or_default (output opts) (lit "openapi.yaml")) = true ->
  exists pre,
    run directory opts e
    = (Returned,
       pre ++ [WriteFile (or_default (output opts) (lit "openapi.yaml"))
                 (normalize text)]).
Proof.
  intros Hyes Hkey Hfs Hscan Hapi Hw.
  unfold run, action, checkApiKey, awaitConsent, awaitDirectory,
    awaitOutputPath, awaitBaseUrl, generate, create.
  rewrite Hyes, Hkey. cbn [negb].
  unfold bind, emit, ret, exit, stop. cbn beta iota.
  destruct directory as [d|]; rewrite ?andb_false_r; cbn beta iota;
    rewrite ?andb_false_r; cbn beta iota; rewrite Hfs; cbn beta iota zeta;
    rewrite ?andb_false_r; cbn beta iota;
    (destruct (scan stat _) as [|f files] eqn:Hs; [congruence|]);
    destruct stat; cbn beta iota; cbn [app];
    change (requests []) with 0%nat;
    try match goal with
      | |- context [requests [Warned ?w]] =>
          change (requests [Warned w]) with 0%nat
      end;
    rewrite Hapi, Hw; cbn beta iota; eexists; reflexivity.
Qed.

Lemma trim_id (r : jstr) :
  starts_with_ws r = false -> ends_with_ws r = false -> trim r = r.
Proof.
  intros Hs He. unfold trim, trimEnd.
  assert (E : forall s, starts_with_ws s = false -> trimStart s = s).
  { intros [|c s] H; [reflexivity|]. simpl in *. rewrite H. reflexivity. }
  rewrite (E r Hs), (E (rev r) He). apply rev_involutive.
Qed.

(** The normalisation gives back the response exactly when there is
    nothing to trim and nothing for the two replacements to remove. *)
Lemma normalize_fixed_iff (r : jstr) :
  normalize (Some r) = r
  <-> starts_with_ws r = false /\ ends_with_ws r = false
      /\ replace_empty re_open r = r
      /\ replace_empty re_close r = r.
Proof.
  unfold normalize. rewrite or_default_some. split.
  - intros H.
    destruct (replace_open_suffix r) as [a Ea].
    destruct (replace_close_prefix (replace_empty re_open r)) as [b Eb].
    destruct (trim_split (replace_empty re_close (replace_empty re_open r)))
      as (a' & b' & Et).
    rewrite H in Et.
    assert (Hlen : List.length a = 0%nat /\ List.length b = 0%nat
                   /\ List.length a' = 0%nat /\ List.length b' = 0%nat).
    { apply (f_equal (@List.length N)) in Ea, Eb, Et.
      rewrite !length_app in *. lia. }
    destruct Hlen as (Ha & Hb & Ha' & Hb').
    apply length_zero_iff_nil in Ha, Hb, Ha', Hb'. subst a b a' b'.
    cbn [app] in Ea, Eb, Et. rewrite app_nil_r in Eb, Et.
    split; [rewrite <- H; apply trim_head|].
    split; [rewrite <- H; apply trim_last|].
    split; [symmetry; exact Ea|].
    rewrite <- Ea in Et. exact Et.
  - intros (Hs & He & Ho & Hc). rewrite Ho, Hc. apply trim_id; assumption.
Qed.

End WrittenExactly.

(** C10 (as amended).  What a run writes to the output file is the
    normalised content of the response to its request, and a run in which
    the request is completed does write it; this text is trimmed, so it
    never begins or ends with white space, and for a response without
    fence marker it is the response trimmed.  The write is the response
    itself exactly when the response neither begins nor ends with white
    space and has nothing for the two replacements to remove; so it is
    not the response byte for byte whenever the response begins or ends
    with white space. *)
Theorem written_text_is_trimmed :
  (forall directory opts e file data,
      In (Cli.WriteFile file data) (snd (Program.run directory opts e)) ->
      (exists text tokens,
          Cli.api e 0 = Cli.ApiOk text tokens /\ data = normalize text)
      /\ starts_with_ws data = false /\ ends_with_ws data = false)
  /\ (forall directory opts e stat text tokens,
         Cli.yes opts = true ->
         truthy (or_else (Cli.apiKey opts) (Cli.OPENAI_API_KEY e)) = true ->
         Cli.fs e (or_default directory (lit ".")) = Some stat ->
         Program.scan stat (or_default directory (lit ".")) <> [] ->
         Cli.api e 0 = Cli.ApiOk text tokens ->
         Cli.writable e (or_default (Cli.output opts) (lit "openapi.yaml"))
         = true ->
         exists pre,
           Program.run directory opts e
           = (Cli.Returned,
              pre ++ [Cli.WriteFile
                        (or_default (Cli.output opts) (lit "openapi.yaml"))
                        (normalize text)]))
  /\ (forall content : option jstr,
         starts_with_ws (normalize content) = false
         /\ ends_with_ws (normalize content) = false)
  /\ (forall r : jstr, has_fence r = false -> normalize (Some r) = trim r)
  /\ (forall r : jstr,
         normalize (Some r) = r
         <-> starts_with_ws r = false /\ ends_with_ws r = false
             /\ replace_empty re_open r = r
             /\ replace_empty re_close r = r)
  /\ (forall r : jstr,
         starts_with_ws r = true \/ ends_with_ws r = true ->
         normalize (Some r) <> r).
Proof.
  assert (Hws : forall content : option jstr,
             starts_with_ws (normalize content) = false
             /\ ends_with_ws (normalize content) = false).
  { intros content. unfold normalize.
    split; [apply trim_head|apply trim_last]. }
  split; [|split; [|split; [exact Hws|split; [exact normalize_plain|split]]]].
  - intros directory opts e file data Hin.
    destruct (write_carries_first_response directory opts e file data Hin)
      as (text & tokens & Hapi & ->).
    split; [exists text, tokens; auto|apply Hws].
  - intros directory opts e stat text tokens.
    apply yes_run_writes.
  - exact normalize_fixed_iff.
  - intros r Hr E. apply normalize_fixed_iff in E.
    destruct E as (Hs & He & _). destruct Hr; congruence.
Qed.

Lemma written_text_is_trimmed_witness :
  (exists pre,
      Program.run (Some (lit "./api")) Scenario.yes_output
        (Scenario.machine Scenario.silent)
      = (Cli.Returned,
         pre ++ [Cli.WriteFile (lit "out.yaml") (lit "openapi: 3.0.3")]))
  /\ normalize (Some (lit "  openapi: 3.0.3 ")) = trim (lit "  openapi: 3.0.3 ")
  /\ normalize (Some (lit "  openapi: 3.0.3 ")) <> lit "  openapi: 3.0.3 ".
Proof.
  destruct written_text_is_trimmed as (_ & Hrun & _ & Hplain & _ & Hneq).
  split; [|split].
  - apply (Hrun (Some (lit "./api")) Scenario.yes_output
             (Scenario.machine Scenario.silent) Scenario.api_dir
             (Some (fence ++ lit "yaml" ++ [newline] ++ lit "openapi: 3.0.3"
                      ++ [newline] ++ fence))
             (Some 1200%N));
      try reflexivity.
    vm_compute. discriminate.
  - apply Hplain. reflexivity.
  - apply Hneq. left. reflexivity.
Defined.

(** C10 as stated fails: a response that has no white space at its ends
    and no fence marker is written byte for byte. *)
Lemma plain_response_is_written_as_is :
  let response := lit "openapi: 3.0.3" in
  let e := {| Cli.OPENAI_API_KEY := Some (lit "sk-test");
              Cli.fs := Scenario.disk;
              Cli.writable := fun _ => true;
              Cli.write_error := None;
              Cli.api := fun _ => Cli.ApiOk (Some response) (Some 1200%N);
              Cli.usr := Scenario.silent |} in
  normalize (Some response) = response
  /\ exists request,
      Program.run (Some (lit "./api")) Scenario.yes_output e
      = (Cli.Returned,
         [request; Cli.WriteFile (lit "out.yaml") response]).
Proof.
  intros response e. split; [vm_compute; reflexivity|].
  eexists. vm_compute. reflexivity.
Qed.
